(** * MongoDb node: the [execute] dispatcher of [MongoDb.node.ts]

    A shallow embedding of [src/nodes/MongoDb/MongoDb.node.ts].  The
    [execute] method reads its parameters from the host, opens a client,
    runs one of seven operations against the driver, closes the client and
    stringifies identifiers in the response payload.

    The host, the Extended-JSON parser, the [ObjectId] constructor, the
    driver verbs and the helpers of [GenericFunctions] are collaborators of
    [execute]; they are gathered in the record [Env] and every statement
    about [execute] is made for an arbitrary [Env].  Strings are kept as
    their UTF-8 bytes. *)

From Stdlib Require Import String Ascii List ZArith Bool Lia Arith.
Import ListNotations.
Local Open Scope string_scope.
Local Open Scope Z_scope.

(* ===================================================================== *)
(** ** Values                                                             *)
(* ===================================================================== *)

#[local] Set Warnings "-register-all".

(** JavaScript values as the node sees them: JSON data, plus the two driver
    classes that Extended JSON produces and the node handles ([ObjectId],
    kept as its bytes, and [Date], kept as milliseconds). *)
Inductive value : Type :=
| VUndefined
| VNull
| VBool (b : bool)
| VNum (n : Z)
| VStr (s : string)
| VObjectId (id : list Z)
| VDate (ms : Z)
| VArr (xs : list value)
| VObj (fields : list (string * value)).

(** A plain object ([IDataObject], [Document]): property names in insertion
    order with their values. *)
Definition obj : Type := list (string * value).

(** Induction on values that reaches the elements of arrays and the
    values of properties. *)
Section ValueInduction.

Variable P : value -> Prop.
Hypothesis P_undefined : P VUndefined.
Hypothesis P_null : P VNull.
Hypothesis P_bool : forall b, P (VBool b).
Hypothesis P_num : forall n, P (VNum n).
Hypothesis P_str : forall s, P (VStr s).
Hypothesis P_oid : forall id, P (VObjectId id).
Hypothesis P_date : forall ms, P (VDate ms).
Hypothesis P_arr : forall xs, Forall P xs -> P (VArr xs).
Hypothesis P_obj : forall o : obj, Forall (fun kv => P (snd kv)) o -> P (VObj o).

Fixpoint value_induction (v : value) : P v :=
  match v with
  | VUndefined => P_undefined
  | VNull => P_null
  | VBool b => P_bool b
  | VNum n => P_num n
  | VStr s => P_str s
  | VObjectId id => P_oid id
  | VDate ms => P_date ms
  | VArr xs =>
      P_arr xs
        ((fix all (l : list value) : Forall P l :=
            match l with
            | [] => Forall_nil P
            | x :: r => Forall_cons x (value_induction x) (all r)
            end) xs)
  | VObj o =>
      P_obj o
        ((fix all (l : list (string * value)) : Forall (fun kv => P (snd kv)) l :=
            match l with
            | [] => Forall_nil _
            | (k, x) :: r =>
                Forall_cons (P := fun kv => P (snd kv)) (k, x) (value_induction x) (all r)
            end) o)
  end.

End ValueInduction.

(** [o[k]]: the value of the first property named [k], [undefined] when
    there is none.  Keys are field names of documents; a member inherited
    from [Object.prototype] is modelled only where the code asks for one by
    name ([constructor_is_Object] below). *)
Fixpoint obj_get (o : obj) (k : string) : value :=
  match o with
  | [] => VUndefined
  | (k', v) :: rest => if String.eqb k' k then v else obj_get rest k
  end.

(** [o[k] = v]: an existing property keeps its place, a new one goes last. *)
Fixpoint obj_set (o : obj) (k : string) (v : value) : obj :=
  match o with
  | [] => [(k, v)]
  | (k', v') :: rest =>
      if String.eqb k' k then (k, v) :: rest else (k', v') :: obj_set rest k v
  end.

(** [delete o[k]]. *)
Definition obj_delete (o : obj) (k : string) : obj :=
  filter (fun kv => negb (String.eqb (fst kv) k)) o.

(** [k in o], for own properties. *)
Definition obj_has (o : obj) (k : string) : bool :=
  existsb (fun kv => String.eqb (fst kv) k) o.

(** [ToBoolean]. *)
Definition truthy (v : value) : bool :=
  match v with
  | VUndefined | VNull => false
  | VBool b => b
  | VNum n => negb (n =? 0)
  | VStr s => negb (String.eqb s EmptyString)
  | VObjectId _ | VDate _ | VArr _ | VObj _ => true
  end.

(** [typeof v === 'string']. *)
Definition is_string (v : value) : bool :=
  match v with VStr _ => true | _ => false end.

(* ===================================================================== *)
(** ** Errors                                                             *)
(* ===================================================================== *)

(** What can be thrown inside [execute]; every error carries a message. *)
Inductive error : Type :=
| ParseError (msg : string)
| IdentifierCoercionError (msg : string)
| DatabaseError (msg : string)
| TypeError (msg : string)
| NodeOperationError (msg : string).

Definition message (e : error) : string :=
  match e with
  | ParseError m | IdentifierCoercionError m | DatabaseError m
  | TypeError m | NodeOperationError m => m
  end.

(** [{ error: error.message }]. *)
Definition error_record (e : error) : value :=
  VObj [("error", VStr (message e))].

(** [v._id] for a parsed query [v]: reading a property of [null] or
    [undefined] throws; arrays, scalars and driver class instances have no
    such property. *)
Definition get_id (v : value) : error + value :=
  match v with
  | VUndefined | VNull => inl (TypeError "Cannot read properties of null")
  | VObj o => inr (obj_get o "_id")
  | _ => inr VUndefined
  end.

(** [v._id = x] for a parsed query [v] that is a plain object. *)
Definition set_id (v : value) (x : value) : value :=
  match v with
  | VObj o => VObj (obj_set o "_id" x)
  | _ => v
  end.

(* ===================================================================== *)
(** ** Identifiers                                                        *)
(* ===================================================================== *)

Module ObjectId.

(** Modelled from the spec: the [ObjectId] class of the driver is not part
    of [src/]; the glossary describes it as the native 12-byte value written
    as 24 hexadecimal characters.  [hex_value] reads one hexadecimal digit,
    of either case. *)
Definition hex_value (c : ascii) : option Z :=
  let n := Z.of_nat (nat_of_ascii c) in
  if (48 <=? n) && (n <=? 57) then Some (n - 48)
  else if (97 <=? n) && (n <=? 102) then Some (n - 87)
  else if (65 <=? n) && (n <=? 70) then Some (n - 55)
  else None.

(** Modelled from the spec: the digit that stands for a number below 16
    in the string form of an identifier. *)
Definition hex_digit (n : Z) : ascii :=
  ascii_of_nat (Z.to_nat (if n <? 10 then n + 48 else n + 87)).

(** Modelled from the spec: two hexadecimal digits make one byte. *)
Fixpoint fromHex (s : string) : option (list Z) :=
  match s with
  | EmptyString => Some []
  | String a (String b rest) =>
      match hex_value a, hex_value b, fromHex rest with
      | Some h, Some l, Some bytes => Some (16 * h + l :: bytes)
      | _, _, _ => None
      end
  | String _ EmptyString => None
  end.

(** Modelled from the spec: a string is a valid identifier when it parses
    as 24 hexadecimal characters. *)
Definition fromHexString (s : string) : option (list Z) :=
  if Nat.eqb (String.length s) 24 then fromHex s else None.

(** Modelled from the spec: the strings that the coercion accepts. *)
Definition isValid (s : string) : bool :=
  match fromHexString s with Some _ => true | None => false end.

(** Modelled from the spec: the string form of an identifier, two digits
    per byte. *)
Fixpoint toHexString (bytes : list Z) : string :=
  match bytes with
  | [] => EmptyString
  | b :: rest =>
      String (hex_digit (b / 16)) (String (hex_digit (b mod 16)) (toHexString rest))
  end.

(** The digits [toHexString] writes: [0-9a-f]. *)
Definition is_lower_hex (c : ascii) : bool :=
  let n := Z.of_nat (nat_of_ascii c) in
  ((48 <=? n) && (n <=? 57)) || ((97 <=? n) && (n <=? 102)).

(** Every character of [s] passes [p]. *)
Fixpoint all_chars (p : ascii -> bool) (s : string) : bool :=
  match s with
  | EmptyString => true
  | String c rest => p c && all_chars p rest
  end.

End ObjectId.

(** Modelled from the spec: [stringifyObjectIDs] of [GenericFunctions] is
    not part of [src/].  Section 4.5: every value of the identifier type is
    rewritten to its string form, recursively, inside nested mappings and
    sequences; everything else is left as it is. *)
Fixpoint stringifyObjectIDs (v : value) : value :=
  match v with
  | VObjectId id => VStr (ObjectId.toHexString id)
  | VArr xs => VArr (map stringifyObjectIDs xs)
  | VObj o => VObj (map (fun kv => let '(k, x) := kv in (k, stringifyObjectIDs x)) o)
  | _ => v
  end.

(* ===================================================================== *)
(** ** Parameters of an invocation                                        *)
(* ===================================================================== *)

(** The [options] collection of the node; an entry that the user left out
    reads as [undefined] ([None]). *)
Record options : Type := {
  limit : option Z;
  skip : option Z;
  sort : option string;
  useDotNotation : bool;
  dateFields : string;
  oidFields : string
}.

(** What [this.getNodeParameter] and [this.continueOnFail] answer during
    one invocation. *)
Record params : Type := {
  operation : string;
  collection : string;
  query : string;
  fields : string;
  updateKey : string;
  upsert : bool;
  opts : options;
  continueOnFail : bool
}.

(* ===================================================================== *)
(** ** What reaches the driver                                            *)
(* ===================================================================== *)

(** The cursor built by [collection.find(...)] and its [skip], [limit] and
    [sort] methods; [None] is an option that was never applied. *)
Record cursor : Type := {
  cur_collection : string;
  cur_filter : value;
  cur_skip : option Z;
  cur_limit : option Z;
  cur_sort : option value
}.

(** One verb call with the arguments the node passes.  The last argument
    of the three per-item verbs is [true] for [{ upsert: true }] and
    [false] for [undefined]. *)
Inductive call : Type :=
| Aggregate (coll : string) (pipeline : value)
| DeleteMany (coll : string) (filter : value)
| Find (c : cursor)
| FindOneAndReplace (coll : string) (filter body : obj) (upsert : bool)
| FindOneAndUpdate (coll : string) (filter update : obj) (upsert : bool)
| InsertMany (coll : string) (docs : list obj)
| UpdateOne (coll : string) (filter update : obj) (upsert : bool).

(** What an invocation does to the client, in order. *)
Inductive event : Type :=
| EvConnect
| EvCall (c : call)
| EvClose.

(** The three verbs of the per-item operations. *)
Inductive item_verb : Type := VReplace | VFindUpdate | VUpdate.

(** [{ $set: item }]. *)
Definition set_body (item : obj) : obj := [("$set", VObj item)].

Definition item_call (verb : item_verb) (coll : string) (filter item : obj)
    (ups : bool) : call :=
  match verb with
  | VReplace => FindOneAndReplace coll filter item ups
  | VFindUpdate => FindOneAndUpdate coll filter (set_body item) ups
  | VUpdate => UpdateOne coll filter (set_body item) ups
  end.

(** The filter of a per-item call. *)
Definition call_filter (c : call) : option obj :=
  match c with
  | FindOneAndReplace _ f _ _ | FindOneAndUpdate _ f _ _ | UpdateOne _ f _ _ => Some f
  | _ => None
  end.

(** The document a per-item call sends: the replacement itself, or what
    stands under [$set]. *)
Definition call_document (c : call) : option obj :=
  match c with
  | FindOneAndReplace _ _ b _ => Some b
  | FindOneAndUpdate _ _ u _ | UpdateOne _ _ u _ =>
      match obj_get u "$set" with VObj d => Some d | _ => None end
  | _ => None
  end.

Definition is_close (ev : event) : bool :=
  match ev with EvClose => true | _ => false end.

(** How often the client was closed. *)
Definition closes (tr : list event) : nat := length (filter is_close tr).

(** The verb calls of a trace, in order. *)
Fixpoint calls (tr : list event) : list call :=
  match tr with
  | [] => []
  | EvCall c :: rest => c :: calls rest
  | _ :: rest => calls rest
  end.

(* ===================================================================== *)
(** ** Collaborators                                                      *)
(* ===================================================================== *)

(** Everything [execute] calls and [src/] does not define.  [W] is the
    state of the world outside the node (the database, the identifier
    generator); an operation of the world takes it and hands it back, with
    either a thrown error or a result.  Verbs are black boxes: they answer
    from their arguments and the world and leave the documents they are
    given as they are.

    - [EJSON_parse]: [EJSON.parse] of [bson];
    - [new_ObjectId]: [new ObjectId(x)] of [mongodb];
    - [prepareFields], [prepareItems]: helpers of [GenericFunctions];
    - [insertMany] is handed the array [insertItems] itself and may write
      into its documents (the driver gives an [_id] to a document that has
      none): it answers the documents as it leaves them, together with
      [insertedIds] as its entries in the order of [Object.keys];
    - [deleteMany] answers [deletedCount]. *)
Record Env : Type := {
  W : Type;
  EJSON_parse : string -> error + value;
  new_ObjectId : value -> W -> (error + list Z) * W;
  prepareFields : string -> list string;
  prepareItems :
    list obj -> list string -> string -> bool -> list string -> list string ->
    W -> (error + list obj) * W;
  aggregate : string -> value -> W -> (error + list value) * W;
  deleteMany : string -> value -> W -> (error + Z) * W;
  find : cursor -> W -> (error + list value) * W;
  findOneAndReplace : string -> obj -> obj -> bool -> W -> (error + unit) * W;
  findOneAndUpdate : string -> obj -> obj -> bool -> W -> (error + unit) * W;
  insertMany :
    string -> list obj -> W -> (error + list obj * list (nat * value)) * W;
  updateOne : string -> obj -> obj -> bool -> W -> (error + unit) * W
}.

(* ===================================================================== *)
(** ** The monad of [execute]                                             *)
(* ===================================================================== *)

(** State and exceptions.  A throw keeps the state reached so far: calls
    already made stay made. *)
Record state (E : Env) : Type := {
  world : W E;
  trace : list event
}.
Arguments world {E} _.
Arguments trace {E} _.

Definition M (E : Env) (A : Type) : Type := state E -> (error + A) * state E.

Definition ret {E A} (a : A) : M E A := fun s => (inr a, s).

Definition throw {E A} (e : error) : M E A := fun s => (inl e, s).

Definition bind {E A B} (m : M E A) (k : A -> M E B) : M E B :=
  fun s =>
    match m s with
    | (inl e, s') => (inl e, s')
    | (inr a, s') => k a s'
    end.

(** [try { m } catch (error) { h error }]. *)
Definition try_catch {E A} (m : M E A) (h : error -> M E A) : M E A :=
  fun s =>
    match m s with
    | (inl e, s') => h e s'
    | (inr a, s') => (inr a, s')
    end.

Definition of_result {E A} (r : error + A) : M E A := fun s => (r, s).

(** An operation of the world that the trace does not record. *)
Definition lift {E A} (f : W E -> (error + A) * W E) : M E A :=
  fun s =>
    let '(r, w) := f (world s) in
    (r, {| world := w; trace := trace s |}).

Definition log {E} (ev : event) : M E unit :=
  fun s => (inr tt, {| world := world s; trace := trace s ++ [ev] |}).

(** A verb call: recorded, then answered by the world. *)
Definition verb {E A} (c : call) (f : W E -> (error + A) * W E) : M E A :=
  bind (log (EvCall c)) (fun _ => lift f).

Declare Scope exec_scope.
Delimit Scope exec_scope with exec.
Notation "x <- m ;; k" := (bind m (fun x => k))
  (at level 61, m at next level, right associativity) : exec_scope.
Notation "m ;;; k" := (bind m (fun _ => k))
  (at level 61, right associativity) : exec_scope.

(* ===================================================================== *)
(** ** [execute]                                                          *)
(* ===================================================================== *)

(** Strings are kept as their UTF-8 bytes.  [String.prototype.trim] removes
    the code points of [WhiteSpace] and [LineTerminator] from both ends.
    Those of one byte: U+0009 to U+000D and U+0020. *)
Definition is_space (c : ascii) : bool :=
  let n := nat_of_ascii c in
  (Nat.leb 9 n && Nat.leb n 13) || Nat.eqb n 32.

(** The one of two bytes: U+00A0, written [C2 A0]. *)
Definition is_space2 (a b : ascii) : bool :=
  Nat.eqb (nat_of_ascii a) 194 && Nat.eqb (nat_of_ascii b) 160.

(** Those of three bytes: U+1680 [E1 9A 80]; U+2000 to U+200A, U+2028,
    U+2029 and U+202F [E2 80 80..8A, A8, A9, AF]; U+205F [E2 81 9F];
    U+3000 [E3 80 80]; U+FEFF [EF BB BF]. *)
Definition is_space3 (a b c : ascii) : bool :=
  let x := nat_of_ascii a in
  let y := nat_of_ascii b in
  let z := nat_of_ascii c in
  (Nat.eqb x 225 && Nat.eqb y 154 && Nat.eqb z 128)
  || (Nat.eqb x 226 && Nat.eqb y 128 &&
      ((Nat.leb 128 z && Nat.leb z 138) || Nat.eqb z 168 || Nat.eqb z 169 || Nat.eqb z 175))
  || (Nat.eqb x 226 && Nat.eqb y 129 && Nat.eqb z 159)
  || (Nat.eqb x 227 && Nat.eqb y 128 && Nat.eqb z 128)
  || (Nat.eqb x 239 && Nat.eqb y 187 && Nat.eqb z 191).

Fixpoint trim_start (s : string) : string :=
  match s with
  | EmptyString => EmptyString
  | String a r1 =>
      if is_space a then trim_start r1
      else
        match r1 with
        | EmptyString => s
        | String b r2 =>
            if is_space2 a b then trim_start r2
            else
              match r2 with
              | EmptyString => s
              | String c r3 => if is_space3 a b c then trim_start r3 else s
              end
        end
  end.

(** Nothing but white space. *)
Definition all_space (s : string) : bool :=
  match trim_start s with EmptyString => true | _ => false end.

Fixpoint trim_end (s : string) : string :=
  match s with
  | EmptyString => EmptyString
  | String c rest => if all_space s then EmptyString else String c (trim_end rest)
  end.

Definition trim (s : string) : string := trim_end (trim_start s).

Definition dquote : string := String "034"%char EmptyString.

(** [`The operation "${operation}" is not supported!`]. *)
Definition unsupported_message (op : string) : string :=
  "The operation " ++ dquote ++ op ++ dquote ++ " is not supported!".

Section Execute.

Context {E : Env}.
Variable p : params.
Variable items : list obj.

Local Open Scope exec_scope.

(** The [catch] of the whole-batch operations. *)
Definition whole_batch (body : M E (list value)) : M E (list value) :=
  try_catch body
    (fun e => if continueOnFail p then ret [error_record e] else throw e).

(** [if (q._id && typeof q._id === 'string') q._id = new ObjectId(q._id)]. *)
Definition coerce_id (q : value) : M E value :=
  id <- of_result (get_id q) ;;
  if truthy id && is_string id then
    oid <- lift (new_ObjectId E id) ;;
    ret (set_id q (VObjectId oid))
  else ret q.

Definition aggregate_body : M E (list value) :=
  q <- of_result (EJSON_parse E (query p)) ;;
  q <- coerce_id q ;;
  verb (Aggregate (collection p) q) (aggregate E (collection p) q).

Definition delete_body : M E (list value) :=
  q <- of_result (EJSON_parse E (query p)) ;;
  deletedCount <- verb (DeleteMany (collection p) q) (deleteMany E (collection p) q) ;;
  ret [VObj [("deletedCount", VNum deletedCount)]].

(** [options.sort && EJSON.parse(options.sort)]. *)
Definition sort_value : error + value :=
  match sort (opts p) with
  | None => inr VUndefined
  | Some s => if truthy (VStr s) then EJSON_parse E s else inr (VStr s)
  end.

(** [Object.keys(v).length !== 0], for a truthy [v].  Numbers and booleans
    have no keys; for a driver class instance the answer does not matter,
    its constructor is not [Object]. *)
Definition has_keys (v : value) : bool :=
  match v with
  | VObj o => negb (Nat.eqb (length o) 0)
  | VArr xs => negb (Nat.eqb (length xs) 0)
  | VStr s => negb (Nat.eqb (String.length s) 0)
  | _ => false
  end.

(** [v.constructor === Object], for a truthy [v]: [constructor] is found on
    [Object.prototype] for a plain object, unless the object has a property
    of that name of its own, which a parsed document then holds as data. *)
Definition constructor_is_Object (v : value) : bool :=
  match v with
  | VObj o => negb (obj_has o "constructor")
  | _ => false
  end.

(** [if (skip > 0) query = query.skip(skip)]; [undefined > 0] is false. *)
Definition apply_skip (n : option Z) (c : cursor) : cursor :=
  match n with
  | Some k =>
      if 0 <? k then
        {| cur_collection := cur_collection c; cur_filter := cur_filter c;
           cur_skip := Some k; cur_limit := cur_limit c; cur_sort := cur_sort c |}
      else c
  | None => c
  end.

Definition apply_limit (n : option Z) (c : cursor) : cursor :=
  match n with
  | Some k =>
      if 0 <? k then
        {| cur_collection := cur_collection c; cur_filter := cur_filter c;
           cur_skip := cur_skip c; cur_limit := Some k; cur_sort := cur_sort c |}
      else c
  | None => c
  end.

Definition apply_sort (srt : value) (c : cursor) : cursor :=
  if truthy srt && has_keys srt && constructor_is_Object srt then
    {| cur_collection := cur_collection c; cur_filter := cur_filter c;
       cur_skip := cur_skip c; cur_limit := cur_limit c; cur_sort := Some srt |}
  else c.

(** [mdb.collection(...).find(q)]: the cursor before any option. *)
Definition fresh_cursor (q : value) : cursor :=
  {| cur_collection := collection p; cur_filter := q;
     cur_skip := None; cur_limit := None; cur_sort := None |}.

Definition find_body : M E (list value) :=
  q <- of_result (EJSON_parse E (query p)) ;;
  q <- coerce_id q ;;
  let c := fresh_cursor q in
  srt <- of_result sort_value ;;
  let c := apply_skip (skip (opts p)) c in
  let c := apply_limit (limit (opts p)) c in
  let c := apply_sort srt c in
  verb (Find c) (find E c).

(** [{ ...insertItems[i], id: insertedIds[i] }]; spreading [undefined]
    copies nothing. *)
Definition with_id (insertItems : list obj) (entry : nat * value) : value :=
  VObj (obj_set (nth (fst entry) insertItems []) "id" (snd entry)).

Definition insert_body : M E (list value) :=
  let fs := prepareFields E (fields p) in
  let dfs := prepareFields E (dateFields (opts p)) in
  let ofs := prepareFields E (oidFields (opts p)) in
  insertItems <- lift (prepareItems E items fs EmptyString
                         (useDotNotation (opts p)) dfs ofs) ;;
  answer <- verb (InsertMany (collection p) insertItems)
              (insertMany E (collection p) insertItems) ;;
  let insertItems := fst answer in
  let insertedIds := snd answer in
  ret (map (with_id insertItems) insertedIds).

(** The first statements of the [try] block of a per-item operation: the
    filter, and the item as it is once they have run. *)
Definition build_filter (key : string) (item : obj) : M E (obj * obj) :=
  let filter := [(key, obj_get item key)] in
  if String.eqb key "_id" then
    oid <- lift (new_ObjectId E (obj_get item key)) ;;
    ret (obj_set filter key (VObjectId oid), obj_delete item "_id")
  else ret (filter, item).

Definition run_verb (v : item_verb) (filter item : obj) : M E unit :=
  let coll := collection p in
  let ups := upsert p in
  verb (item_call v coll filter item ups)
    (match v with
     | VReplace => findOneAndReplace E coll filter item ups
     | VFindUpdate => findOneAndUpdate E coll filter (set_body item) ups
     | VUpdate => updateOne E coll filter (set_body item) ups
     end).

(** The [catch] of a per-item operation, for the item as the [try] block
    left it: [item.json = { error: error.message }; continue], or rethrow. *)
Definition on_item_error (e : error) (item : obj) : M E obj :=
  if continueOnFail p then ret (obj_set item "json" (error_record e))
  else throw e.

(** The [try] block of a per-item operation for one item: it ends with
    the item as the block left it, after the verb has answered ([inr]) or
    with the error that was thrown ([inl]). *)
Definition item_try (v : item_verb) (key : string) (item : obj)
    (s : state E) : (error * obj + obj) * state E :=
  match build_filter key item s with
  | (inl e, s1) => (inl (e, item), s1)
  | (inr (filter, item'), s1) =>
      match run_verb v filter item' s1 with
      | (inl e, s2) => (inl (e, item'), s2)
      | (inr _, s2) => (inr item', s2)
      end
  end.

(** One turn of the loop [for (const item of updateItems)]: the [try]
    block and its [catch]; the result is the item as the turn leaves it in
    [updateItems]. *)
Definition item_step (v : item_verb) (key : string) (item : obj) : M E obj :=
  fun s =>
    match item_try v key item s with
    | (inl (e, item'), s') => on_item_error e item' s'
    | (inr item', s') => (inr item', s')
    end.

Fixpoint for_each {A B : Type} (f : A -> M E B) (xs : list A) : M E (list B) :=
  match xs with
  | [] => ret []
  | x :: rest =>
      y <- f x ;;
      ys <- for_each f rest ;;
      ret (y :: ys)
  end.

Definition per_item_body (v : item_verb) : M E (list value) :=
  let fs := prepareFields E (fields p) in
  let dfs := prepareFields E (dateFields (opts p)) in
  let ofs := prepareFields E (oidFields (opts p)) in
  let key := trim (updateKey p) in
  updateItems <- lift (prepareItems E items fs key
                         (useDotNotation (opts p)) dfs ofs) ;;
  updateItems <- for_each (item_step v key) updateItems ;;
  ret (map VObj updateItems).

(** The chain of [if (operation === ...)]. *)
Definition dispatch : M E (list value) :=
  let op := operation p in
  if String.eqb op "aggregate" then whole_batch aggregate_body
  else if String.eqb op "delete" then whole_batch delete_body
  else if String.eqb op "find" then whole_batch find_body
  else if String.eqb op "findOneAndReplace" then per_item_body VReplace
  else if String.eqb op "findOneAndUpdate" then per_item_body VFindUpdate
  else if String.eqb op "insert" then whole_batch insert_body
  else if String.eqb op "update" then per_item_body VUpdate
  else if continueOnFail p then
    ret [VObj [("error", VStr (unsupported_message op))]]
  else throw (NodeOperationError (unsupported_message op)).

(** [execute], from the connected client to the payload handed to the
    host's [returnJsonArray]. *)
Definition execute : M E (list value) :=
  log EvConnect ;;;
  responseData <- dispatch ;;
  log EvClose ;;;
  ret (map stringifyObjectIDs responseData).

End Execute.

(** The state in which an invocation starts. *)
Definition init {E : Env} (w : W E) : state E := {| world := w; trace := [] |}.

(** The operations that run once for the whole batch, and those that run
    once per item. *)
Definition whole_batch_operations : list string :=
  ["aggregate"; "find"; "insert"; "delete"].

Definition per_item_operations : list string :=
  ["update"; "findOneAndUpdate"; "findOneAndReplace"].

Definition recognized_operations : list string :=
  ["aggregate"; "delete"; "find"; "findOneAndReplace"; "findOneAndUpdate";
   "insert"; "update"].

(** The operations that parse the [query] parameter. *)
Definition query_operations : list string := ["aggregate"; "find"; "delete"].

(** The verb of a per-item operation. *)
Definition per_item_verb (op : string) : option item_verb :=
  if String.eqb op "findOneAndReplace" then Some VReplace
  else if String.eqb op "findOneAndUpdate" then Some VFindUpdate
  else if String.eqb op "update" then Some VUpdate
  else None.

(** The [try] block of a whole-batch operation. *)
Definition whole_batch_body {E : Env} (p : params) (items : list obj) : M E (list value) :=
  let op := operation p in
  if String.eqb op "aggregate" then aggregate_body p
  else if String.eqb op "delete" then delete_body p
  else if String.eqb op "find" then find_body p
  else insert_body p items.

(** The state once the client is connected. *)
Definition connected {E : Env} (w : W E) : state E :=
  {| world := w; trace := [EvConnect] |}.

(** The state once the client is closed. *)
Definition closed {E : Env} (s : state E) : state E :=
  {| world := world s; trace := trace s ++ [EvClose] |}.

(** The query, filter or pipeline that a whole-batch call carries. *)
Definition call_query (c : call) : option value :=
  match c with
  | Aggregate _ q | DeleteMany _ q => Some q
  | Find cur => Some (cur_filter cur)
  | _ => None
  end.

(* ===================================================================== *)
(** ** The helpers of [GenericFunctions], after the specification        *)
(* ===================================================================== *)

Module Generic.

(** The pieces of [s] between the occurrences of [sep]. *)
Fixpoint split_on (sep : ascii) (s : string) : list string :=
  match s with
  | EmptyString => [EmptyString]
  | String c rest =>
      if Ascii.eqb c sep then EmptyString :: split_on sep rest
      else match split_on sep rest with
           | [] => [String c EmptyString]
           | w :: ws => String c w :: ws
           end
  end.

Definition nonempty (s : string) : bool :=
  match s with EmptyString => false | _ => true end.

(** Modelled from the spec: [prepareFields] of [GenericFunctions] is not
    part of [src/].  Section 4.2: the names of a comma-delimited string,
    trimmed, empty entries dropped. *)
Definition prepareFields (s : string) : list string :=
  filter nonempty (map trim (split_on ","%char s)).

(** Modelled from the spec: assignment at a nested path, creating the
    intermediate mappings as needed (section 4.3, step 3). *)
Fixpoint set_path (o : obj) (path : list string) (v : value) : obj :=
  match path with
  | [] => o
  | [k] => obj_set o k v
  | k :: rest =>
      let sub := match obj_get o k with VObj s => s | _ => [] end in
      obj_set o k (VObj (set_path sub rest v))
  end.

(** Modelled from the spec: with dot notation a key is a path, without it
    a key is a name. *)
Definition assign (dot : bool) (o : obj) (k : string) (v : value) : obj :=
  if dot then set_path o (split_on "."%char k) v else obj_set o k v.

(** Modelled from the spec: step 3 of section 4.3, copy each candidate
    key that the record has. *)
Fixpoint copy_fields (dot : bool) (record : obj) (keys : list string) (doc : obj) : obj :=
  match keys with
  | [] => doc
  | k :: rest =>
      let doc' := if obj_has record k then assign dot doc k (obj_get record k) else doc in
      copy_fields dot record rest doc'
  end.

Section Coercions.

(** [Date] parsing and the identifier generator belong to the platform. *)
Variable parse_date : string -> option Z.
Variable W : Type.
Variable fresh_id : W -> list Z * W.

(** Modelled from the spec: step 4, a date field becomes a date when it
    parses, and stays as it is when it does not. *)
Definition to_date (v : value) : value :=
  match v with
  | VNum n => VDate n
  | VStr s => match parse_date s with Some ms => VDate ms | None => v end
  | _ => v
  end.

(** Modelled from the spec: step 4 over the date selector. *)
Fixpoint coerce_dates (keys : list string) (doc : obj) : obj :=
  match keys with
  | [] => doc
  | k :: rest =>
      coerce_dates rest (if obj_has doc k then obj_set doc k (to_date (obj_get doc k)) else doc)
  end.

(** Modelled from the spec: the coercion to the identifier type (sections 3
    and 7): an absent value gets a generated identifier, a string of 24
    hexadecimal digits is read, an identifier stays, anything else is an
    [IdentifierCoercionError]. *)
Definition to_ObjectId (v : value) (w : W) : (error + list Z) * W :=
  match v with
  | VUndefined | VNull => let '(id, w') := fresh_id w in (inr id, w')
  | VObjectId id => (inr id, w)
  | VStr s =>
      match ObjectId.fromHexString s with
      | Some id => (inr id, w)
      | None => (inl (IdentifierCoercionError "input must be a 24 character hex string"), w)
      end
  | _ => (inl (IdentifierCoercionError "input must be a 24 character hex string"), w)
  end.

(** Modelled from the spec: step 5 over the identifier selector; the
    first value that does not coerce ends the pass with its error. *)
Fixpoint coerce_ids (keys : list string) (doc : obj) (w : W) : (error + obj) * W :=
  match keys with
  | [] => (inr doc, w)
  | k :: rest =>
      if obj_has doc k then
        match to_ObjectId (obj_get doc k) w with
        | (inl e, w') => (inl e, w')
        | (inr id, w') => coerce_ids rest (obj_set doc k (VObjectId id)) w'
        end
      else coerce_ids rest doc w
  end.

(** Modelled from the spec: one record through steps 1 to 5 of section 4.3. *)
Definition prepareItem (fields : list string) (dot : bool)
    (dateFields oidFields : list string) (record : obj) (w : W) : (error + obj) * W :=
  let keys := match fields with [] => map fst record | _ => fields end in
  let doc := copy_fields dot record keys [] in
  let doc := coerce_dates dateFields doc in
  coerce_ids oidFields doc w.

(** Modelled from the spec: [prepareItems] of [GenericFunctions] is not
    part of [src/].  Section 4.3: the records are normalized one by one, in
    order; its algorithm makes no use of the update key. *)
Fixpoint prepareItems (items : list obj) (fields : list string) (updateKey : string)
    (dot : bool) (dateFields oidFields : list string) (w : W) : (error + list obj) * W :=
  match items with
  | [] => (inr [], w)
  | record :: rest =>
      match prepareItem fields dot dateFields oidFields record w with
      | (inl e, w') => (inl e, w')
      | (inr doc, w') =>
          match prepareItems rest fields updateKey dot dateFields oidFields w' with
          | (inl e, w'') => (inl e, w'')
          | (inr docs, w'') => (inr (doc :: docs), w'')
          end
      end
  end.

End Coercions.

End Generic.

(* ===================================================================== *)
(** ** A small world to run [execute] in                                  *)
(* ===================================================================== *)

(** A server whose collections are empty when the invocation starts and
    which rejects a document with a negative [age]; identifiers are
    generated from a counter, which is the whole state of this world.
    [parse] is [EJSON.parse] on the strings used below. *)
Module Sample.

Definition quoted (s : string) : string := dquote ++ s ++ dquote.

Definition hex_id : string := "507f1f77bcf86cd799439011".
Definition upper_hex_id : string := "507F1F77BCF86CD799439011".

(** [{}] *)
Definition query_all : string := "{}".
(** [{"_id": ""}] with an empty string for the identifier. *)
Definition query_blank_id : string :=
  "{" ++ quoted "_id" ++ ": " ++ quoted EmptyString ++ "}".
(** [{"_id": "507f1f77bcf86cd799439011"}] *)
Definition query_hex_id : string :=
  "{" ++ quoted "_id" ++ ": " ++ quoted hex_id ++ "}".
(** [{"name": 1}] *)
Definition sort_by_name : string := "{" ++ quoted "name" ++ ": 1}".
(** [{"constructor": 1}] *)
Definition sort_by_constructor : string := "{" ++ quoted "constructor" ++ ": 1}".
(** [{] *)
Definition malformed : string := "{".

Definition parse (s : string) : error + value :=
  if String.eqb s query_all then inr (VObj [])
  else if String.eqb s query_blank_id then inr (VObj [("_id", VStr EmptyString)])
  else if String.eqb s query_hex_id then inr (VObj [("_id", VStr hex_id)])
  else if String.eqb s sort_by_name then inr (VObj [("name", VNum 1)])
  else if String.eqb s sort_by_constructor then inr (VObj [("constructor", VNum 1)])
  else inl (ParseError "Unexpected end of JSON input").

Definition parse_date (s : string) : option Z :=
  if String.eqb s "1970-01-01T00:00:00.000Z" then Some 0 else None.

Definition fresh_id (w : nat) : list Z * nat :=
  ((repeat 0 11 ++ [Z.of_nat w])%list, S w).

Definition valid (d : obj) : bool :=
  match obj_get d "age" with
  | VNum n => negb (n <? 0)
  | _ => true
  end.

Definition rejected : error := DatabaseError "Document failed validation".

Definition write (d : obj) (w : nat) : (error + unit) * nat :=
  if valid d then (inr tt, w) else (inl rejected, w).

Definition set_document (update : obj) : obj :=
  match obj_get update "$set" with VObj d => d | _ => [] end.

(** The driver's bulk insert from index [i] on: a document keeps the [_id]
    it has, a document without one is given a generated [_id]; the
    identifier of each document is reported under its index. *)
Fixpoint insert_from (docs : list obj) (i : nat) (w : nat)
    : (list obj * list (nat * value)) * nat :=
  match docs with
  | [] => (([], []), w)
  | d :: rest =>
      if obj_has d "_id" then
        let '((ds, ids), w') := insert_from rest (S i) w in
        ((d :: ds, (i, obj_get d "_id") :: ids), w')
      else
        let '(id, w1) := fresh_id w in
        let '((ds, ids), w') := insert_from rest (S i) w1 in
        ((obj_set d "_id" (VObjectId id) :: ds, (i, VObjectId id) :: ids), w')
  end.

Definition insert (docs : list obj) (w : nat)
    : (error + list obj * list (nat * value)) * nat :=
  if forallb valid docs then
    let '(answer, w') := insert_from docs 0 w in (inr answer, w')
  else (inl rejected, w).

Definition env : Env := {|
  W := nat;
  EJSON_parse := parse;
  new_ObjectId := Generic.to_ObjectId nat fresh_id;
  prepareFields := Generic.prepareFields;
  prepareItems := Generic.prepareItems parse_date nat fresh_id;
  aggregate := fun _ _ w => (inr [], w);
  deleteMany := fun _ _ w => (inr 0, w);
  find := fun _ w => (inr [], w);
  findOneAndReplace := fun _ _ body _ => write body;
  findOneAndUpdate := fun _ _ update _ => write (set_document update);
  insertMany := fun _ docs => insert docs;
  updateOne := fun _ _ update _ => write (set_document update)
|}.

Definition no_options : options := {|
  limit := None; skip := None; sort := None;
  useDotNotation := false; dateFields := EmptyString; oidFields := EmptyString
|}.

(** An invocation of [operation] on collection [users]. *)
Definition invocation (op q key : string) (o : options) (cof : bool) : params := {|
  operation := op; collection := "users"; query := q; fields := EmptyString;
  updateKey := key; upsert := false; opts := o; continueOnFail := cof
|}.

(** The operation name [foo], with continue-on-failure off. *)
Definition unsupported : params :=
  invocation "foo" query_all EmptyString no_options false.


(** [find] everything, sorted by the field [constructor]. *)
Definition find_sorted_by_constructor : params :=
  invocation "find" query_all EmptyString
    {| limit := Some 5; skip := Some 0; sort := Some sort_by_constructor;
       useDotNotation := false; dateFields := EmptyString; oidFields := EmptyString |}
    false.

(** [find] by a blank identifier, and by a hexadecimal one. *)
Definition find_blank_id : params :=
  invocation "find" query_blank_id EmptyString no_options false.

Definition find_hex_id : params :=
  invocation "find" query_hex_id EmptyString no_options false.

(** [insert] of the items as they are. *)
Definition insert_all : params :=
  invocation "insert" EmptyString EmptyString no_options false.

(** Per-item operations on the key [name], and on the key [_id] written
    with spaces around it. *)
Definition update_by_name (cof : bool) : params :=
  invocation "update" EmptyString "name" no_options cof.

Definition replace_by_id : params :=
  invocation "findOneAndReplace" EmptyString " _id " no_options true.

(** [delete] by a hexadecimal identifier. *)
Definition delete_hex_id : params :=
  invocation "delete" query_hex_id EmptyString no_options false.

Definition alice : obj := [("_id", VStr hex_id); ("name", VStr "alice"); ("age", VNum 30)].
Definition bob : obj := [("name", VStr "bob"); ("age", VNum (-1))].
Definition carol : obj := [("name", VStr "carol"); ("age", VNum 41)].

End Sample.

(* ===================================================================== *)
(** ** Statements that the code is tested against                         *)
(* ===================================================================== *)

(** The trace an invocation leaves behind, whether it returns or throws. *)
Definition trace_of {E : Env} (p : params) (items : list obj) (w : W E) : list event :=
  trace (snd (execute p items (init w))).

(** The session is closed exactly once by the time the invocation ends. *)
Definition closed_exactly_once {E : Env} (p : params) (items : list obj) (w : W E) : Prop :=
  closes (trace_of p items w) = 1%nat.

Definition id_is_ObjectId (q : value) : Prop :=
  exists id, get_id q = inr (VObjectId id).

(** Whenever the parsed query has a plain string under [_id], the verb
    receives an [ObjectId] there. *)
Definition string_id_coerced {E : Env} (p : params) (items : list obj) (w : W E) : Prop :=
  In (operation p) query_operations ->
  forall q s, EJSON_parse E (query p) = inr q -> get_id q = inr (VStr s) ->
  forall c q', In c (calls (trace_of p items w)) -> call_query c = Some q' ->
  id_is_ObjectId q'.

(** The sort option is applied exactly when the sort string is not empty
    and parses to a plain mapping with at least one key. *)
Definition sort_applied_iff_mapping {E : Env} (p : params) (items : list obj) (w : W E) : Prop :=
  forall c, In (Find c) (calls (trace_of p items w)) ->
  (cur_sort c <> None <->
   exists s o, sort (opts p) = Some s /\ s <> EmptyString /\
               EJSON_parse E s = inr (VObj o) /\ o <> []).

(** Coercing a valid identifier string and stringifying the result gives
    the string back. *)
Definition roundtrip (s : string) : Prop :=
  ObjectId.isValid s = true ->
  exists id, ObjectId.fromHexString s = Some id /\
             stringifyObjectIDs (VObjectId id) = VStr s.

(** The call of [prepareItems] that an operation with update key [key]
    makes. *)
Definition prepare {E : Env} (p : params) (items : list obj) (key : string)
    : W E -> (error + list obj) * W E :=
  prepareItems E items (prepareFields E (fields p)) key (useDotNotation (opts p))
    (prepareFields E (dateFields (opts p))) (prepareFields E (oidFields (opts p))).

(** The record that insert returns for a document as [insertMany] left it
    and the identifier generated for it. *)
Definition inserted_record (entry : obj * value) : value :=
  stringifyObjectIDs (VObj (obj_set (fst entry) "id" (snd entry))).

(** The record of insert at every position is the normalized document at
    that position with a field [id] added. *)
Definition insert_adds_only_id {E : Env} (p : params) (items : list obj) (w : W E) : Prop :=
  forall docs w1 resp s,
    prepare p items EmptyString w = (inr docs, w1) ->
    execute p items (init w) = (inr resp, s) ->
    forall i d, nth_error docs i = Some d ->
    exists id, nth_error resp i = Some (VObj (obj_set d "id" id)).

(** [c] is the call that a per-item operation with update key [key] makes
    for [item], in some state of the world. *)
Definition sent_for (E : Env) (p : params) (v : item_verb) (key : string)
    (item : obj) (c : call) : Prop :=
  exists filter item' (s0 s1 : state E),
    build_filter key item s0 = (inr (filter, item'), s1) /\
    c = item_call v (collection p) filter item' (upsert p).

(** A computation that leaves the number of closes as it found it. *)
Definition keeps_session {E : Env} {A : Type} (m : M E A) : Prop :=
  forall s r s', m s = (r, s') -> closes (trace s') = closes (trace s).

(* ===================================================================== *)
(** ** What a computation adds to the trace                               *)
(* ===================================================================== *)

(** [m] adds verb calls and nothing else to the trace: at most [n] of
    them, each of which satisfies [P]. *)
Definition emits {E : Env} {A : Type} (P : call -> Prop) (n : nat) (m : M E A) : Prop :=
  forall s r s',
    m s = (r, s') ->
    exists cs, trace s' = (trace s ++ map EvCall cs)%list /\
               Forall P cs /\ (length cs <= n)%nat.

(** The operation name under which the node calls a verb. *)
Definition call_operation (c : call) : string :=
  match c with
  | Aggregate _ _ => "aggregate"
  | DeleteMany _ _ => "delete"
  | Find _ => "find"
  | FindOneAndReplace _ _ _ _ => "findOneAndReplace"
  | FindOneAndUpdate _ _ _ _ => "findOneAndUpdate"
  | InsertMany _ _ => "insert"
  | UpdateOne _ _ _ _ => "update"
  end.

(** The collection a verb is called on. *)
Definition call_collection (c : call) : string :=
  match c with
  | Aggregate coll _ | DeleteMany coll _ | FindOneAndReplace coll _ _ _
  | FindOneAndUpdate coll _ _ _ | InsertMany coll _ | UpdateOne coll _ _ _ => coll
  | Find cur => cur_collection cur
  end.

(** [c] is a call of the operation and on the collection that [p] names. *)
Definition call_of (p : params) (c : call) : Prop :=
  call_operation c = operation p /\ call_collection c = collection p.

(** The item as the [try] block of a per-item operation sends it. *)
Definition sent_item (key : string) (item : obj) : obj :=
  if String.eqb key "_id" then obj_delete item "_id" else item.

(** How one turn of the loop of a per-item operation can leave an item of
    [updateItems]: as it was sent, or with the error record under [json],
    set before the [_id] was deleted (the [ObjectId] constructor threw) or
    after (the verb threw). *)
Inductive left_as (p : params) (key : string) (item : obj) : obj -> Prop :=
| left_sent : left_as p key item (sent_item key item)
| left_uncoerced (e : error) :
    continueOnFail p = true -> key = "_id" ->
    left_as p key item (obj_set item "json" (error_record e))
| left_failed (e : error) :
    continueOnFail p = true ->
    left_as p key item (obj_set (sent_item key item) "json" (error_record e)).

(** How many verb calls an invocation can make: one for a whole-batch
    operation, one per normalized item for a per-item operation, none when
    the normalizer throws or the operation is not recognized. *)
Definition call_bound {E : Env} (p : params) (items : list obj) (w : W E) : nat :=
  match per_item_verb (operation p) with
  | Some _ =>
      match prepare p items (trim (updateKey p)) w with
      | (inr docs, _) => length docs
      | (inl _, _) => 0%nat
      end
  | None =>
      if existsb (String.eqb (operation p)) whole_batch_operations then 1%nat else 0%nat
  end.

(** Whether an invocation returned. *)
Definition returned {A B : Type} (r : A + B) : bool :=
  match r with inr _ => true | inl _ => false end.

(* ===================================================================== *)
(** ** [mongoDbCredentialTest]                                            *)
(* ===================================================================== *)

(** The credential fields that the test reads; [None] is a field that is
    not set. *)
Record credentials : Type := {
  database : option string;
  configurationType : option string;
  connectionString : option string
}.

(** [INodeCredentialTestResult]. *)
Record test_result : Type := {
  status : string;
  result_message : string
}.

(** What the credential test calls and [src/] does not define: the two
    helpers of [GenericFunctions] and [client.db().admin().listDatabases()],
    which answers the names of the databases. *)
Record Admin : Type := {
  AW : Type;
  buildParameterizedConnString : credentials -> string;
  connectMongoClient : string -> credentials -> AW -> (error + unit) * AW;
  listDatabases : AW -> (error + list string) * AW
}.

(** [(x as string) || '']. *)
Definition or_empty (x : option string) : string :=
  match x with Some s => s | None => EmptyString end.

(** [`Database "${database}" does not exist`]. *)
Definition missing_database (name : string) : string :=
  "Database " ++ dquote ++ name ++ dquote ++ " does not exist".

Definition connection_target (A : Admin) (credential : credentials) : string :=
  match configurationType credential with
  | Some "connectionString" => trim (or_empty (connectionString credential))
  | _ => buildParameterizedConnString A credential
  end.

Definition test_error (e : error) : test_result :=
  {| status := "Error"; result_message := message e |}.

(** The test, with the world it leaves and what it did to the client.
    Everything up to [client.close()] stands in the [try]; the [catch]
    answers with the message of what was thrown.  Building the connection
    string and closing the client are taken not to throw. *)
Definition mongoDbCredentialTest (A : Admin) (credential : credentials) (w : AW A)
    : test_result * (AW A * list event) :=
  let name := trim (or_empty (database credential)) in
  match connectMongoClient A (connection_target A credential) credential w with
  | (inl e, w1) => (test_error e, (w1, []))
  | (inr _, w1) =>
      match listDatabases A w1 with
      | (inl e, w2) => (test_error e, (w2, [EvConnect]))
      | (inr databases, w2) =>
          if existsb (String.eqb name) databases then
            ({| status := "OK"; result_message := "Connection successful!" |},
             (w2, [EvConnect; EvClose]))
          else
            ({| status := "Error"; result_message := missing_database name |},
             (w2, [EvConnect]))
      end
  end.

(* ===================================================================== *)
(** ** More runs in the sample world                                      *)
(* ===================================================================== *)

Module Cases.

(** [Sample.parse], and [null]. *)
Definition parse (s : string) : error + value :=
  if String.eqb s "null" then inr VNull else Sample.parse s.

Definition env : Env := {|
  W := nat;
  EJSON_parse := parse;
  new_ObjectId := new_ObjectId Sample.env;
  prepareFields := prepareFields Sample.env;
  prepareItems := prepareItems Sample.env;
  aggregate := aggregate Sample.env;
  deleteMany := deleteMany Sample.env;
  find := find Sample.env;
  findOneAndReplace := findOneAndReplace Sample.env;
  findOneAndUpdate := findOneAndUpdate Sample.env;
  insertMany := insertMany Sample.env;
  updateOne := updateOne Sample.env
|}.

Definition find_null : params :=
  Sample.invocation "find" "null" EmptyString Sample.no_options true.

Definition find_all : params :=
  Sample.invocation "find" Sample.query_all EmptyString Sample.no_options false.

Definition sorted (s : string) : options := {|
  limit := Some 5; skip := Some 0; sort := Some s;
  useDotNotation := false; dateFields := EmptyString; oidFields := EmptyString
|}.

Definition find_sorted_by_name : params :=
  Sample.invocation "find" Sample.query_all EmptyString (sorted Sample.sort_by_name) false.

Definition find_bad_sort : params :=
  Sample.invocation "find" Sample.query_all EmptyString (sorted Sample.malformed) true.

(** Update by [name], with [name] also listed as an identifier field. *)
Definition update_name_as_id : params :=
  Sample.invocation "update" EmptyString "name"
    {| limit := None; skip := None; sort := None;
       useDotNotation := false; dateFields := EmptyString; oidFields := "name" |}
    true.

Definition coercion_error : error :=
  IdentifierCoercionError "input must be a 24 character hex string".

(** A server with the databases [admin] and [shop] that refuses the
    connection string [nowhere]. *)
Definition admin : Admin := {|
  AW := unit;
  buildParameterizedConnString := fun _ => "mongodb://localhost:27017";
  connectMongoClient := fun target _ w =>
    if String.eqb target "nowhere" then (inl (DatabaseError "ECONNREFUSED"), w)
    else (inr tt, w);
  listDatabases := fun w => (inr ["admin"; "shop"], w)
|}.

Definition shop : credentials :=
  {| database := Some " shop "; configurationType := Some "values";
     connectionString := None |}.

Definition stock : credentials :=
  {| database := Some "stock"; configurationType := Some "values";
     connectionString := None |}.

(** U+00A0, U+FEFF and U+2028 in UTF-8. *)
Definition nbsp : string := String "194"%char (String "160"%char EmptyString).
Definition bom : string :=
  String "239"%char (String "187"%char (String "191"%char EmptyString)).
Definition line_separator : string :=
  String "226"%char (String "128"%char (String "168"%char EmptyString)).

(** Update by the key [_id] written between Unicode spaces. *)
Definition update_by_padded_id : params :=
  Sample.invocation "update" EmptyString (nbsp ++ "_id" ++ bom ++ line_separator)
    Sample.no_options false.

(** The database [shop] written with a no-break space after it. *)
Definition shop_padded : credentials :=
  {| database := Some ("shop" ++ nbsp); configurationType := Some "values";
     connectionString := None |}.

(** An item whose [_id] is not an identifier. *)
Definition dave : obj := [("_id", VStr "xyz"); ("name", VStr "dave")].

End Cases.

(* ===================================================================== *)
(** * Properties                                                          *)
(* ===================================================================== *)

Local Open Scope list_scope.

(** ** Objects *)

Lemma obj_get_set_same (o : obj) (k : string) (v : value) :
  obj_get (obj_set o k v) k = v.
Proof.
  induction o as [|[k' v'] rest IH]; simpl.
  - now rewrite String.eqb_refl.
  - destruct (String.eqb k' k) eqn:Hk; simpl.
    + now rewrite String.eqb_refl.
    + now rewrite Hk.
Qed.

Lemma obj_has_delete (o : obj) (k : string) : obj_has (obj_delete o k) k = false.
Proof.
  unfold obj_has, obj_delete.
  induction o as [|[k' v'] rest IH]; simpl; [reflexivity|].
  destruct (String.eqb k' k) eqn:Hk; simpl; [assumption|].
  now rewrite Hk.
Qed.

(** ** Identifiers *)

Module ObjectIdFacts.
Import ObjectId.

(** A digit among [0-9a-f] is read as a number below 16 that is written
    back as the same digit. *)
Lemma lower_hex_digit (c : ascii) :
  is_lower_hex c = true ->
  match hex_value c with
  | Some n => (0 <=? n) && (n <? 16) && Ascii.eqb (hex_digit n) c = true
  | None => False
  end.
Proof.
  destruct c as [[] [] [] [] [] [] [] []]; vm_compute; intros H;
    solve [discriminate H | reflexivity].
Qed.

Lemma byte_split (h l : Z) :
  0 <= h < 16 -> 0 <= l < 16 ->
  (16 * h + l) / 16 = h /\ (16 * h + l) mod 16 = l.
Proof.
  intros Hh Hl. split.
  - symmetry. apply Z.div_unique with (r := l); lia.
  - symmetry. apply Z.mod_unique with (q := h); lia.
Qed.

Lemma fromHex_toHexString_bounded (n : nat) :
  forall s bytes,
    (String.length s <= n)%nat ->
    all_chars is_lower_hex s = true ->
    fromHex s = Some bytes ->
    toHexString bytes = s.
Proof.
  induction n as [|n IH]; intros s bytes Hlen Hall Hfrom.
  - destruct s; simpl in Hlen; [|lia].
    simpl in Hfrom. injection Hfrom as <-. reflexivity.
  - destruct s as [|a [|b rest]]; cbn [fromHex] in Hfrom.
    + injection Hfrom as <-. reflexivity.
    + discriminate.
    + simpl in Hall.
      apply andb_true_iff in Hall as [Ha Hall].
      apply andb_true_iff in Hall as [Hb Hall].
      pose proof (lower_hex_digit a Ha) as Da.
      pose proof (lower_hex_digit b Hb) as Db.
      destruct (hex_value a) as [h|]; [|contradiction].
      destruct (hex_value b) as [l|]; [|contradiction].
      destruct (fromHex rest) as [tl|] eqn:Hrest; [|discriminate].
      injection Hfrom as <-.
      apply andb_true_iff in Da as [Da Ea]. apply andb_true_iff in Da as [Da1 Da2].
      apply andb_true_iff in Db as [Db Eb]. apply andb_true_iff in Db as [Db1 Db2].
      apply Ascii.eqb_eq in Ea, Eb.
      destruct (byte_split h l) as [Hdiv Hmod]; [lia | lia |].
      change (toHexString (16 * h + l :: tl) = String a (String b rest)).
      cbn [toHexString]. rewrite Hdiv, Hmod, Ea, Eb.
      f_equal. f_equal.
      apply IH; [simpl in Hlen; lia | assumption | assumption].
Qed.

Lemma fromHexString_toHexString (s : string) (id : list Z) :
  all_chars is_lower_hex s = true ->
  fromHexString s = Some id ->
  toHexString id = s.
Proof.
  unfold fromHexString. intros Hall Hfrom.
  destruct (Nat.eqb (String.length s) 24); [|discriminate].
  now apply (fromHex_toHexString_bounded (String.length s)).
Qed.

(** The bytes do not remember the case of the digits they were read from. *)
Lemma fromHexString_forgets_case :
  fromHexString Sample.upper_hex_id = fromHexString Sample.hex_id.
Proof. reflexivity. Qed.

End ObjectIdFacts.

Lemma stringifyObjectIDs_idempotent (v : value) :
  stringifyObjectIDs (stringifyObjectIDs v) = stringifyObjectIDs v.
Proof.
  induction v as [ | | b | n | s | id | ms | xs IH | o IH ] using value_induction;
    simpl; try reflexivity.
  - f_equal. rewrite map_map.
    induction IH as [|x rest Hx _ IHrest]; simpl; [reflexivity|].
    now rewrite Hx, IHrest.
  - f_equal. rewrite map_map.
    induction IH as [|[k x] rest Hx _ IHrest]; simpl; [reflexivity|].
    simpl in Hx. now rewrite Hx, IHrest.
Qed.

(** C9, as stated, fails: the identifier string [507F1F77BCF86CD799439011]
    is valid, and coercing then stringifying it gives the lower-case
    [507f1f77bcf86cd799439011]. *)
Lemma roundtrip_fails_on_upper_case : ~ roundtrip Sample.upper_hex_id.
Proof.
  intros H. destruct (H eq_refl) as [id [Hfrom Hstr]].
  vm_compute in Hfrom. injection Hfrom as <-.
  vm_compute in Hstr. discriminate Hstr.
Qed.

(** C9, amended: for every valid identifier string written with the digits
    [0-9a-f], stringifying the result of its coercion gives the string back;
    and stringifying a payload that was already stringified changes
    nothing. *)
Theorem identifier_roundtrip_lower_case :
  (forall s : string,
      ObjectId.isValid s = true ->
      ObjectId.all_chars ObjectId.is_lower_hex s = true ->
      exists id, ObjectId.fromHexString s = Some id /\
                 stringifyObjectIDs (VObjectId id) = VStr s) /\
  (forall v : value,
      stringifyObjectIDs (stringifyObjectIDs v) = stringifyObjectIDs v).
Proof.
  split.
  - intros s Hvalid Hlower. unfold ObjectId.isValid in Hvalid.
    destruct (ObjectId.fromHexString s) as [id|] eqn:Hfrom; [|discriminate].
    exists id. split; [reflexivity|]. simpl. f_equal.
    now apply ObjectIdFacts.fromHexString_toHexString.
  - exact stringifyObjectIDs_idempotent.
Qed.

Lemma identifier_roundtrip_lower_case_witness :
  exists id, ObjectId.fromHexString Sample.hex_id = Some id /\
             stringifyObjectIDs (VObjectId id) = VStr Sample.hex_id.
Proof.
  apply (proj1 identifier_roundtrip_lower_case Sample.hex_id); reflexivity.
Defined.

(** ** Traces *)

Lemma closes_app (a b : list event) : closes (a ++ b) = (closes a + closes b)%nat.
Proof. unfold closes. now rewrite filter_app, length_app. Qed.

Lemma closes_call (tr : list event) (c : call) : closes (tr ++ [EvCall c]) = closes tr.
Proof. rewrite closes_app. unfold closes. simpl. lia. Qed.

Lemma calls_app (a b : list event) : calls (a ++ b) = calls a ++ calls b.
Proof.
  induction a as [|ev a IH]; simpl; [reflexivity|].
  destruct ev; simpl; now rewrite IH.
Qed.

Section Steps.

Context {E : Env}.
Variable p : params.

Lemma lift_trace {A} (f : W E -> (error + A) * W E) (s s' : state E) (r : error + A) :
  lift f s = (r, s') -> trace s' = trace s.
Proof.
  unfold lift. destruct (f (world s)) as [r0 w]. intros H.
  injection H as <- <-. reflexivity.
Qed.

Lemma lift_world {A} (f : W E -> (error + A) * W E) (s s' : state E) (r : error + A) :
  lift f s = (r, s') -> f (world s) = (r, world s').
Proof.
  unfold lift. destruct (f (world s)) as [r0 w]. intros H.
  injection H as <- <-. reflexivity.
Qed.

Lemma verb_trace {A} (c : call) (f : W E -> (error + A) * W E)
    (s s' : state E) (r : error + A) :
  verb c f s = (r, s') -> trace s' = trace s ++ [EvCall c].
Proof.
  unfold verb, bind, log. intros H. apply lift_trace in H. exact H.
Qed.

Lemma coerce_id_trace (q : value) (s s' : state E) (r : error + value) :
  coerce_id q s = (r, s') -> trace s' = trace s.
Proof.
  unfold coerce_id, bind, of_result, ret. intros H.
  destruct (get_id q) as [e|id]; [injection H as <- <-; reflexivity|].
  destruct (truthy id && is_string id).
  - destruct (lift (new_ObjectId E id) s) as [[e|oid] s1] eqn:Hl;
      apply lift_trace in Hl; injection H as <- <-; exact Hl.
  - injection H as <- <-. reflexivity.
Qed.

Lemma build_filter_trace (key : string) (item : obj) (s s' : state E)
    (r : error + obj * obj) :
  build_filter key item s = (r, s') -> trace s' = trace s.
Proof.
  unfold build_filter, bind, ret. intros H.
  destruct (String.eqb key "_id").
  - destruct (lift (new_ObjectId E (obj_get item key)) s) as [[e|oid] s1] eqn:Hl;
      apply lift_trace in Hl; injection H as <- <-; exact Hl.
  - injection H as <- <-. reflexivity.
Qed.

Lemma run_verb_trace (v : item_verb) (filter item : obj) (s s' : state E)
    (r : error + unit) :
  run_verb p v filter item s = (r, s') ->
  trace s' = trace s ++ [EvCall (item_call v (collection p) filter item (upsert p))].
Proof. unfold run_verb. apply verb_trace. Qed.

(** What the [try] block of one item adds to the trace: nothing when the
    filter could not be built, and otherwise the one call of the verb with
    the filter and the item that [build_filter] made. *)
Lemma item_try_trace (v : item_verb) (key : string) (item : obj) (s s' : state E)
    (r : error * obj + obj) :
  item_try p v key item s = (r, s') ->
  (trace s' = trace s /\ exists e s1, build_filter key item s = (inl e, s1)) \/
  (exists filter item' s1,
      build_filter key item s = (inr (filter, item'), s1) /\
      trace s' = trace s ++
                 [EvCall (item_call v (collection p) filter item' (upsert p))]).
Proof.
  unfold item_try. intros H.
  destruct (build_filter key item s) as [[e|[filter item']] s1] eqn:Hb.
  - left. apply build_filter_trace in Hb. injection H as <- <-.
    split; [exact Hb|]. now exists e, s1.
  - right. exists filter, item', s1. split; [reflexivity|].
    apply build_filter_trace in Hb.
    destruct (run_verb p v filter item' s1) as [[e|[]] s2] eqn:Hv;
      apply run_verb_trace in Hv; injection H as <- <-; now rewrite Hv, Hb.
Qed.

End Steps.

(** ** The dispatch *)

Section Dispatch.

Context {E : Env}.
Variable p : params.
Variable items : list obj.

Lemma dispatch_whole_batch :
  In (operation p) whole_batch_operations ->
  dispatch (E := E) p items = whole_batch p (whole_batch_body p items).
Proof.
  unfold dispatch, whole_batch_body, whole_batch_operations.
  intros [H|[H|[H|[H|[]]]]]; rewrite <- H; reflexivity.
Qed.

Lemma operation_per_item_verb :
  In (operation p) per_item_operations ->
  exists v, per_item_verb (operation p) = Some v.
Proof.
  unfold per_item_operations.
  intros [H|[H|[H|[]]]]; rewrite <- H; eexists; reflexivity.
Qed.

Lemma dispatch_per_item (v : item_verb) :
  per_item_verb (operation p) = Some v ->
  dispatch (E := E) p items = per_item_body p items v.
Proof.
  unfold per_item_verb, dispatch.
  destruct (String.eqb_spec (operation p) "findOneAndReplace") as [->|_].
  { intros H. injection H as <-. reflexivity. }
  destruct (String.eqb_spec (operation p) "findOneAndUpdate") as [->|_].
  { intros H. injection H as <-. reflexivity. }
  destruct (String.eqb_spec (operation p) "update") as [->|_].
  { intros H. injection H as <-. reflexivity. }
  discriminate.
Qed.

Lemma dispatch_unsupported :
  ~ In (operation p) recognized_operations ->
  dispatch (E := E) p items =
  if continueOnFail p then
    ret [VObj [("error", VStr (unsupported_message (operation p)))]]
  else throw (NodeOperationError (unsupported_message (operation p))).
Proof.
  unfold dispatch, recognized_operations. intros H.
  repeat match goal with
    | |- context [String.eqb (operation p) ?s] =>
        destruct (String.eqb_spec (operation p) s) as [Heq|_];
        [exfalso; apply H; rewrite Heq; simpl; tauto|]
    end.
  reflexivity.
Qed.

End Dispatch.

(** C6: an operation name outside the seven recognized ones makes the
    invocation throw the unsupported-operation error when continue-on-failure
    is off, and return the single error record when it is on; the message of
    both is [The operation], the operation name between double quotes (the
    character 34), [is not supported!]; in both cases no verb is called. *)
Theorem unsupported_operation {E : Env} (p : params) (items : list obj) (w : W E) :
  ~ In (operation p) recognized_operations ->
  (continueOnFail p = false ->
   execute p items (init w) =
   (inl (NodeOperationError
           ("The operation " ++
            String "034"%char (operation p ++ String "034"%char " is not supported!"))%string),
    connected w)) /\
  (continueOnFail p = true ->
   execute p items (init w) =
   (inr [VObj [("error",
                VStr ("The operation " ++
                      String "034"%char
                        (operation p ++ String "034"%char " is not supported!"))%string)]],
    closed (connected w))) /\
  calls (trace_of p items w) = [].
Proof.
  intros Hop. unfold trace_of, execute, bind.
  rewrite (dispatch_unsupported p items Hop).
  destruct (continueOnFail p); simpl; repeat split; intros; try discriminate; reflexivity.
Qed.

Lemma unsupported_operation_witness :
  execute (E := Sample.env) Sample.unsupported [] (init (E := Sample.env) 0%nat) =
  (inl (NodeOperationError
          ("The operation " ++
           String "034"%char ("foo" ++ String "034"%char " is not supported!"))%string),
   connected (E := Sample.env) 0%nat).
Proof.
  refine (proj1 (unsupported_operation (E := Sample.env)
                   Sample.unsupported [] 0%nat _) eq_refl).
  simpl. intros H.
  repeat (destruct H as [H|H]; [discriminate H|]). exact H.
Defined.

(** ** The session *)

Create HintDb session discriminated.

Section Session.

Context {E : Env}.
Variable p : params.
Variable items : list obj.

Lemma keeps_ret {A} (a : A) : keeps_session (E := E) (ret a).
Proof. intros s r s' H. injection H as <- <-. reflexivity. Qed.

Lemma keeps_throw {A} (e : error) : keeps_session (E := E) (A := A) (throw e).
Proof. intros s r s' H. injection H as <- <-. reflexivity. Qed.

Lemma keeps_of_result {A} (x : error + A) : keeps_session (E := E) (of_result x).
Proof. intros s r s' H. injection H as <- <-. reflexivity. Qed.

Lemma keeps_lift {A} (f : W E -> (error + A) * W E) : keeps_session (E := E) (lift f).
Proof. intros s r s' H. apply lift_trace in H. now rewrite H. Qed.

Lemma keeps_verb {A} (c : call) (f : W E -> (error + A) * W E) :
  keeps_session (E := E) (verb c f).
Proof.
  intros s r s' H. apply verb_trace in H.
  now rewrite H, closes_call.
Qed.

Lemma keeps_bind {A B} (m : M E A) (k : A -> M E B) :
  keeps_session m -> (forall a, keeps_session (k a)) -> keeps_session (E := E) (bind m k).
Proof.
  intros Hm Hk s r s' H. unfold bind in H.
  destruct (m s) as [[e|a] s1] eqn:Hms.
  - injection H as <- <-. exact (Hm _ _ _ Hms).
  - rewrite (Hk a _ _ _ H). exact (Hm _ _ _ Hms).
Qed.

Lemma keeps_try_catch {A} (m : M E A) (h : error -> M E A) :
  keeps_session m -> (forall e, keeps_session (h e)) -> keeps_session (E := E) (try_catch m h).
Proof.
  intros Hm Hh s r s' H. unfold try_catch in H.
  destruct (m s) as [[e|a] s1] eqn:Hms.
  - rewrite (Hh e _ _ _ H). exact (Hm _ _ _ Hms).
  - injection H as <- <-. exact (Hm _ _ _ Hms).
Qed.

Lemma keeps_for_each {A B} (f : A -> M E B) (xs : list A) :
  (forall x, keeps_session (f x)) -> keeps_session (E := E) (for_each f xs).
Proof.
  intros Hf. induction xs as [|x rest IH]; simpl.
  - apply keeps_ret.
  - apply keeps_bind; [apply Hf|]. intros y.
    apply keeps_bind; [exact IH|]. intros ys. apply keeps_ret.
Qed.

Lemma keeps_coerce_id (q : value) : keeps_session (coerce_id (E := E) q).
Proof. intros s r s' H. apply coerce_id_trace in H. now rewrite H. Qed.

#[local] Hint Resolve keeps_ret keeps_throw keeps_of_result keeps_lift keeps_verb
  keeps_bind keeps_try_catch keeps_for_each keeps_coerce_id : session.

Lemma keeps_item_step (v : item_verb) (key : string) (item : obj) :
  keeps_session (E := E) (item_step p v key item).
Proof.
  intros s r s' H. unfold item_step in H.
  destruct (item_try p v key item s) as [[[e item']|item'] s1] eqn:Ht.
  - assert (Hc : closes (trace s1) = closes (trace s)).
    { destruct (item_try_trace p v key item s s1 _ Ht)
        as [[Htr _]|(f & d & s0 & _ & Htr)]; rewrite Htr; [reflexivity|].
      apply closes_call. }
    unfold on_item_error in H.
    destruct (continueOnFail p); injection H as <- <-; exact Hc.
  - injection H as <- <-.
    destruct (item_try_trace p v key item s s1 _ Ht)
      as [[Htr _]|(f & d & s0 & _ & Htr)]; rewrite Htr; [reflexivity|].
    apply closes_call.
Qed.

Lemma keeps_whole_batch_body : keeps_session (whole_batch_body (E := E) p items).
Proof.
  unfold whole_batch_body, aggregate_body, delete_body, find_body, insert_body.
  repeat match goal with
    | |- context [if ?b then _ else _] => destruct b
    end; auto 10 with session.
Qed.

#[local] Hint Resolve keeps_item_step keeps_whole_batch_body : session.

Lemma keeps_dispatch : keeps_session (dispatch (E := E) p items).
Proof.
  pose proof keeps_whole_batch_body as Hbody. unfold whole_batch_body in Hbody.
  unfold dispatch, whole_batch, per_item_body.
  repeat match goal with
    | |- context [if String.eqb ?a ?b then _ else _] => destruct (String.eqb a b)
    end;
    try (apply keeps_try_catch; [exact Hbody|intros e]);
    try destruct (continueOnFail p); auto 10 with session.
Qed.

(** [execute] closes the client once when it returns and not at all when
    it throws: [client.close()] stands after the chain of operations and
    nothing protects it from a throw out of that chain. *)
Lemma execute_closes (w : W E) (r : error + list value) (s : state E) :
  execute p items (init w) = (r, s) ->
  closes (trace s) = match r with inr _ => 1%nat | inl _ => 0%nat end.
Proof.
  unfold execute, bind, log, ret, init. simpl. intros H.
  destruct (dispatch p items {| world := w; trace := [EvConnect] |})
    as [[e|resp] s1] eqn:Hd; apply keeps_dispatch in Hd; simpl in Hd.
  - injection H as <- <-. exact Hd.
  - injection H as <- <-. simpl. rewrite closes_app, Hd. reflexivity.
Qed.

End Session.

(** C1 fails on the code: with the operation name [foo] and
    continue-on-failure off, the invocation ends with the client connected
    and never closed. *)
Theorem session_left_open_when_operation_unsupported
    {E : Env} (items : list obj) (w : W E) :
  trace_of Sample.unsupported items w = [EvConnect] /\
  ~ closed_exactly_once Sample.unsupported items w.
Proof.
  assert (Htrace : trace_of Sample.unsupported items w = [EvConnect]) by reflexivity.
  split; [exact Htrace|].
  unfold closed_exactly_once. rewrite Htrace. discriminate.
Qed.

(** ** Whole-batch operations *)

Section WholeBatch.

Context {E : Env}.
Variable p : params.
Variable items : list obj.

(** [execute] on a whole-batch operation, in terms of its [try] block. *)
Lemma execute_whole_batch (w : W E) :
  In (operation p) whole_batch_operations ->
  execute p items (init w) =
  match whole_batch_body p items (connected w) with
  | (inr resp, s) => (inr (map stringifyObjectIDs resp), closed s)
  | (inl e, s) =>
      if continueOnFail p then (inr [error_record e], closed s) else (inl e, s)
  end.
Proof.
  intros Hop. unfold execute, bind, log, init. simpl.
  rewrite (dispatch_whole_batch p items Hop).
  unfold whole_batch, try_catch. fold (connected w).
  destruct (whole_batch_body p items (connected w)) as [[e|resp] s]; [|reflexivity].
  destruct (continueOnFail p); reflexivity.
Qed.

Lemma calls_closed (s : state E) : calls (trace (closed s)) = calls (trace s).
Proof. unfold closed. simpl. rewrite calls_app. simpl. apply app_nil_r. Qed.

(** The calls of an invocation are those of the [try] block. *)
Lemma calls_whole_batch (w : W E) :
  In (operation p) whole_batch_operations ->
  calls (trace_of p items w) =
  calls (trace (snd (whole_batch_body p items (connected w)))).
Proof.
  intros Hop. unfold trace_of. rewrite (execute_whole_batch w Hop).
  destruct (whole_batch_body p items (connected w)) as [[e|resp] s]; simpl.
  - destruct (continueOnFail p); [apply calls_closed|reflexivity].
  - apply calls_closed.
Qed.

End WholeBatch.



(** ** Insert *)

(** The normalizer of section 4.3 returns one document per record. *)
Lemma prepareItems_length (parse_date : string -> option Z) (W : Type)
    (fresh_id : W -> list Z * W) (fields : list string) (updateKey : string)
    (dot : bool) (dateFields oidFields : list string) (items : list obj) :
  forall (w w' : W) (docs : list obj),
    Generic.prepareItems parse_date W fresh_id items fields updateKey dot
      dateFields oidFields w = (inr docs, w') ->
    length docs = length items.
Proof.
  induction items as [|record rest IH]; intros w w' docs H; simpl in H.
  - injection H as <- _. reflexivity.
  - destruct (Generic.prepareItem parse_date W fresh_id fields dot dateFields oidFields
                record w) as [[e|doc] w1]; [discriminate|].
    destruct (Generic.prepareItems parse_date W fresh_id rest fields updateKey dot
                dateFields oidFields w1) as [[e|docs'] w2] eqn:Hrest; [discriminate|].
    injection H as <- _. simpl. f_equal. exact (IH _ _ _ Hrest).
Qed.

Lemma map_with_id (left : list obj) (ids : list value) :
  length ids = length left ->
  forall pre : list obj,
    map (with_id (pre ++ left)) (combine (seq (length pre) (length left)) ids) =
    map (fun entry => VObj (obj_set (fst entry) "id" (snd entry))) (combine left ids).
Proof.
  revert ids. induction left as [|d rest IH]; intros ids Hlen pre; [reflexivity|].
  destruct ids as [|id ids]; [discriminate|]. simpl in Hlen. simpl.
  f_equal.
  - unfold with_id. simpl. rewrite app_nth2 by lia. now rewrite Nat.sub_diag.
  - specialize (IH ids (eq_add_S _ _ Hlen) (pre ++ [d])).
    rewrite <- app_assoc, length_app, Nat.add_comm in IH. exact IH.
Qed.

(** C5, as stated, fails: insert of two items of which the second has no
    [_id] returns, for the second, the document with the [_id] that
    [insertMany] wrote into it as well as the [id]. *)
Lemma insert_adds_more_than_id :
  ~ insert_adds_only_id (E := Sample.env) Sample.insert_all
      [Sample.alice; Sample.carol] 0%nat.
Proof.
  intros H.
  destruct (H [Sample.alice; Sample.carol] 0%nat _ _ eq_refl eq_refl
              1%nat Sample.carol eq_refl) as [id Hid].
  vm_compute in Hid. discriminate Hid.
Qed.

(** C5, amended: insert runs the normalizer with the empty update key and
    hands all the normalized documents to one [insertMany]; the record it
    returns at position [i] is the [i]-th document as [insertMany] left it
    (the driver writes an [_id] into a document that has none), with the
    field [id] set to the identifier generated for index [i], and with
    identifiers stringified like every response; there is one record per
    input item, in order. *)
Theorem insert_returns_documents_with_ids {E : Env} (p : params) (items : list obj)
    (w w1 w2 : W E) (docs left : list obj) (ids : list value) :
  operation p = "insert" ->
  prepareItems E items (prepareFields E (fields p)) EmptyString
    (useDotNotation (opts p)) (prepareFields E (dateFields (opts p)))
    (prepareFields E (oidFields (opts p))) w = (inr docs, w1) ->
  length docs = length items ->
  insertMany E (collection p) docs w1 =
    (inr (left, combine (seq 0 (length left)) ids), w2) ->
  length left = length docs ->
  length ids = length docs ->
  execute p items (init w) =
  (inr (map inserted_record (combine left ids)),
   {| world := w2;
      trace := [EvConnect; EvCall (InsertMany (collection p) docs); EvClose] |}) /\
  length (map inserted_record (combine left ids)) = length items /\
  forall i d id,
    nth_error left i = Some d -> nth_error ids i = Some id ->
    nth_error (map inserted_record (combine left ids)) i =
    Some (stringifyObjectIDs (VObj (obj_set d "id" id))).
Proof.
  intros Hop Hprep Hlen Hins Hleft Hids.
  split; [|split].
  - rewrite execute_whole_batch by (rewrite Hop; simpl; tauto).
    unfold whole_batch_body. rewrite Hop. simpl.
    unfold insert_body, bind, lift, verb, bind, log, lift, ret, connected. simpl.
    rewrite Hprep. simpl. rewrite Hins. simpl.
    pose proof (map_with_id left ids (eq_trans Hids (eq_sym Hleft)) []) as Hmap.
    simpl in Hmap. rewrite Hmap. now rewrite map_map.
  - rewrite length_map, length_combine, Hleft, Hids, <- Hlen. lia.
  - intros i d id Hd Hid.
    rewrite nth_error_map.
    assert (Hnth : nth_error (combine left ids) i = Some (d, id)).
    { clear - Hd Hid. revert ids i Hd Hid.
      induction left as [|x rest IH]; intros ids i Hd Hid; [destruct i; discriminate|].
      destruct ids as [|y ids]; [destruct i; discriminate|].
      destruct i as [|i]; simpl in *; [congruence|]. now apply IH. }
    now rewrite Hnth.
Qed.

Lemma insert_returns_documents_with_ids_witness :
  execute (E := Sample.env) Sample.insert_all [Sample.alice; Sample.carol]
    (init (E := Sample.env) 0%nat) =
  (inr [VObj [("_id", VStr Sample.hex_id); ("name", VStr "alice"); ("age", VNum 30);
              ("id", VStr Sample.hex_id)];
        VObj [("name", VStr "carol"); ("age", VNum 41);
              ("_id", VStr "000000000000000000000000");
              ("id", VStr "000000000000000000000000")]],
   Build_state Sample.env 1%nat
     [EvConnect; EvCall (InsertMany "users" [Sample.alice; Sample.carol]); EvClose]).
Proof.
  apply (proj1 (insert_returns_documents_with_ids (E := Sample.env) Sample.insert_all
                  [Sample.alice; Sample.carol] 0%nat 0%nat 1%nat
                  [Sample.alice; Sample.carol]
                  [Sample.alice;
                   obj_set Sample.carol "_id" (VObjectId (fst (Sample.fresh_id 0)))]
                  [VStr Sample.hex_id; VObjectId (fst (Sample.fresh_id 0))]
                  eq_refl eq_refl eq_refl eq_refl eq_refl eq_refl)).
Defined.

(** ** Queries: aggregate and find *)

(** Run the verb call that the goal has reached: name its answer and the
    state it leaves, and record that it added one event to the trace. *)
Ltac run_verb_call Hv :=
  match goal with
  | |- context [verb ?c ?f ?s] =>
      let r := fresh "r" in
      let s' := fresh "s" in
      destruct (verb c f s) as [r s'] eqn:Hv; apply verb_trace in Hv
  end.

(** Go through the cases of the three tests that shape the cursor. *)
Ltac cursor_cases k l srt :=
  unfold apply_sort, apply_limit, apply_skip;
  destruct (truthy srt && has_keys srt && constructor_is_Object srt);
  destruct l as [l|]; try destruct (0 <? l);
  destruct k as [k|]; try destruct (0 <? k); reflexivity.

Section Queries.

Context {E : Env}.
Variable p : params.
Variable items : list obj.

Lemma coerce_id_nonempty_string (q : value) (str : string) (s : state E) :
  get_id q = inr (VStr str) -> str <> EmptyString ->
  coerce_id q s =
  match new_ObjectId E (VStr str) (world s) with
  | (inl e, w') => (inl e, {| world := w'; trace := trace s |})
  | (inr id, w') =>
      (inr (set_id q (VObjectId id)), {| world := w'; trace := trace s |})
  end.
Proof.
  intros Hget Hne. unfold coerce_id, bind, of_result, lift, ret.
  rewrite Hget. simpl.
  destruct (String.eqb_spec str EmptyString) as [->|_]; [contradiction|]. simpl.
  destruct (new_ObjectId E (VStr str) (world s)) as [[e|id] w']; reflexivity.
Qed.

Lemma get_id_set_id (q x : value) (str : string) :
  get_id q = inr (VStr str) -> get_id (set_id q x) = inr x.
Proof.
  destruct q; simpl; try discriminate. intros _. now rewrite obj_get_set_same.
Qed.

Lemma cur_filter_applied (k l : option Z) (srt q : value) :
  cur_filter (apply_sort srt (apply_limit l (apply_skip k (fresh_cursor p q)))) = q.
Proof.
  cursor_cases k l srt.
Qed.

(** The calls of the [try] block of find: none when the block throws
    before [toArray], and otherwise the one [find] on the cursor to which
    the three options were applied. *)
Lemma find_body_calls (w : W E) :
  calls (trace (snd (find_body p (connected w)))) = [] \/
  exists q srt,
    sort_value (E := E) p = inr srt /\
    calls (trace (snd (find_body p (connected w)))) =
    [Find (apply_sort srt (apply_limit (limit (opts p))
             (apply_skip (skip (opts p)) (fresh_cursor p q))))].
Proof.
  unfold find_body, bind, of_result.
  destruct (EJSON_parse E (query p)) as [e|q0]; [left; reflexivity|].
  destruct (coerce_id q0 (connected w)) as [[e|q] s1] eqn:Hc;
    pose proof (coerce_id_trace _ _ _ _ Hc) as Htr; simpl in Htr.
  { left. simpl. now rewrite Htr. }
  destruct (sort_value p) as [e|srt] eqn:Hs.
  { left. simpl. now rewrite Htr. }
  right. exists q, srt. split; [reflexivity|].
  run_verb_call Hv.
  simpl. rewrite Hv, Htr. reflexivity.
Qed.

Lemma aggregate_body_calls (w : W E) (q : value) (str : string) :
  EJSON_parse E (query p) = inr q ->
  get_id q = inr (VStr str) -> str <> EmptyString ->
  calls (trace (snd (aggregate_body p (connected w)))) =
  match new_ObjectId E (VStr str) w with
  | (inl _, _) => []
  | (inr id, _) => [Aggregate (collection p) (set_id q (VObjectId id))]
  end.
Proof.
  intros Hparse Hget Hne. unfold aggregate_body, bind, of_result.
  rewrite Hparse, (coerce_id_nonempty_string q str _ Hget Hne). simpl.
  destruct (new_ObjectId E (VStr str) w) as [[e|id] w']; [reflexivity|].
  run_verb_call Hv.
  simpl. rewrite Hv. reflexivity.
Qed.

Lemma find_body_calls_string_id (w : W E) (q : value) (str : string) :
  EJSON_parse E (query p) = inr q ->
  get_id q = inr (VStr str) -> str <> EmptyString ->
  calls (trace (snd (find_body p (connected w)))) =
  match new_ObjectId E (VStr str) w, sort_value (E := E) p with
  | (inr id, _), inr srt =>
      [Find (apply_sort srt (apply_limit (limit (opts p))
               (apply_skip (skip (opts p))
                  (fresh_cursor p (set_id q (VObjectId id))))))]
  | _, _ => []
  end.
Proof.
  intros Hparse Hget Hne. unfold find_body, bind, of_result.
  rewrite Hparse, (coerce_id_nonempty_string q str _ Hget Hne). simpl.
  destruct (new_ObjectId E (VStr str) w) as [[e|id] w']; [reflexivity|].
  destruct (sort_value p) as [e|srt]; [reflexivity|].
  run_verb_call Hv.
  simpl. rewrite Hv. reflexivity.
Qed.

End Queries.

(** C2, as stated, fails: find with the query [{"_id": ""}] hands the
    empty string, not an [ObjectId], to the verb. *)
Lemma blank_string_id_not_coerced :
  ~ string_id_coerced (E := Sample.env) Sample.find_blank_id [] 0%nat.
Proof.
  intros H.
  destruct (H (or_intror (or_introl eq_refl))
              (VObj [("_id", VStr EmptyString)]) EmptyString eq_refl eq_refl
              (Find {| cur_collection := "users";
                       cur_filter := VObj [("_id", VStr EmptyString)];
                       cur_skip := None; cur_limit := None; cur_sort := None |})
              (VObj [("_id", VStr EmptyString)])
              (or_introl eq_refl) eq_refl) as [id Hid].
  discriminate Hid.
Qed.

(** C2, amended: for aggregate and find, when the parsed query has a
    non-empty plain string under [_id], that string goes to the [ObjectId]
    constructor; if the constructor accepts it, every verb call of the
    invocation receives the query with the resulting [ObjectId] under
    [_id] (aggregate makes that one call, find makes it once the sort
    option has parsed), and if it throws, no verb is called. *)
Theorem nonempty_string_id_coerced {E : Env} (p : params) (items : list obj)
    (w : W E) (q : value) (str : string) :
  In (operation p) ["aggregate"; "find"] ->
  EJSON_parse E (query p) = inr q ->
  get_id q = inr (VStr str) ->
  str <> EmptyString ->
  match new_ObjectId E (VStr str) w with
  | (inr id, _) =>
      let q' := set_id q (VObjectId id) in
      get_id q' = inr (VObjectId id) /\
      (forall c, In c (calls (trace_of p items w)) -> call_query c = Some q') /\
      (operation p = "aggregate" ->
       calls (trace_of p items w) = [Aggregate (collection p) q']) /\
      (operation p = "find" -> forall srt, sort_value (E := E) p = inr srt ->
       exists c, calls (trace_of p items w) = [Find c])
  | (inl _, _) => calls (trace_of p items w) = []
  end.
Proof.
  intros Hop Hparse Hget Hne.
  assert (Hbatch : In (operation p) whole_batch_operations).
  { destruct Hop as [H|[H|[]]]; rewrite <- H; simpl; tauto. }
  rewrite (calls_whole_batch p items w Hbatch). unfold whole_batch_body.
  destruct Hop as [Hop|[Hop|[]]]; rewrite <- Hop; simpl.
  - rewrite (aggregate_body_calls p w q str Hparse Hget Hne).
    destruct (new_ObjectId E (VStr str) w) as [[e|id] w']; [reflexivity|].
    split; [exact (get_id_set_id q _ str Hget)|].
    split; [|split].
    + intros c [<-|[]]. reflexivity.
    + reflexivity.
    + discriminate.
  - rewrite (find_body_calls_string_id p w q str Hparse Hget Hne).
    destruct (new_ObjectId E (VStr str) w) as [[e|id] w']; [reflexivity|].
    split; [exact (get_id_set_id q _ str Hget)|].
    split; [|split].
    + destruct (sort_value p) as [e|srt]; intros c Hin; [destruct Hin|].
      destruct Hin as [<-|[]]. simpl. f_equal. apply cur_filter_applied.
    + discriminate.
    + intros _ srt ->. eexists. reflexivity.
Qed.

Lemma nonempty_string_id_coerced_witness :
  get_id (VObj [("_id", VObjectId [80; 127; 31; 119; 188; 248; 108; 215; 153; 67; 144; 17])])
  = inr (VObjectId [80; 127; 31; 119; 188; 248; 108; 215; 153; 67; 144; 17]) /\
  exists c, calls (trace_of (E := Sample.env) Sample.find_hex_id [] 0%nat) = [Find c].
Proof.
  assert (Hne : Sample.hex_id <> EmptyString) by discriminate.
  pose proof (nonempty_string_id_coerced (E := Sample.env) Sample.find_hex_id [] 0%nat
                (VObj [("_id", VStr Sample.hex_id)]) Sample.hex_id
                (or_intror (or_introl eq_refl)) eq_refl eq_refl Hne) as H.
  exact (conj (proj1 H) (proj2 (proj2 (proj2 H)) eq_refl VUndefined eq_refl)).
Defined.

(** ** The options of find *)

Section FindOptions.

Context {E : Env}.
Variable p : params.
Variable items : list obj.

Lemma cur_skip_applied (k l : option Z) (srt q : value) :
  cur_skip (apply_sort srt (apply_limit l (apply_skip k (fresh_cursor p q)))) =
  match k with Some n => if 0 <? n then Some n else None | None => None end.
Proof.
  cursor_cases k l srt.
Qed.

Lemma cur_limit_applied (k l : option Z) (srt q : value) :
  cur_limit (apply_sort srt (apply_limit l (apply_skip k (fresh_cursor p q)))) =
  match l with Some n => if 0 <? n then Some n else None | None => None end.
Proof.
  cursor_cases k l srt.
Qed.

Lemma cur_sort_applied (k l : option Z) (srt q : value) :
  cur_sort (apply_sort srt (apply_limit l (apply_skip k (fresh_cursor p q)))) =
  if truthy srt && has_keys srt && constructor_is_Object srt then Some srt else None.
Proof.
  cursor_cases k l srt.
Qed.

(** The three tests on the parsed sort pass for a plain mapping that has
    at least one key and no key named [constructor], and for nothing else. *)
Lemma sort_tests (srt : value) :
  truthy srt && has_keys srt && constructor_is_Object srt = true <->
  exists o, srt = VObj o /\ o <> [] /\ obj_has o "constructor" = false.
Proof.
  split.
  - destruct srt; simpl; rewrite ?andb_false_r; try discriminate.
    intros H. apply andb_true_iff in H as [Hk Hc].
    exists fields0. split; [reflexivity|]. split.
    + intros ->. discriminate Hk.
    + now apply negb_true_iff in Hc.
  - intros (o & -> & Hne & Hc). simpl. rewrite Hc.
    destruct o; [contradiction|reflexivity].
Qed.

(** X9: what find does with its options: skip and limit are applied
    exactly when they are positive; the sort is applied exactly when the
    sort string is not empty and parses to a plain mapping that has at least
    one key and none named [constructor]. *)
Lemma find_options_applied (w : W E) (c : cursor) :
  operation p = "find" ->
  In (Find c) (calls (trace_of p items w)) ->
  cur_skip c =
    match skip (opts p) with Some n => if 0 <? n then Some n else None | None => None end /\
  cur_limit c =
    match limit (opts p) with Some n => if 0 <? n then Some n else None | None => None end /\
  (cur_sort c <> None <->
   exists s o, sort (opts p) = Some s /\ s <> EmptyString /\
               EJSON_parse E s = inr (VObj o) /\ o <> [] /\
               obj_has o "constructor" = false).
Proof.
  intros Hop Hin.
  rewrite calls_whole_batch in Hin by (rewrite Hop; simpl; tauto).
  unfold whole_batch_body in Hin. rewrite Hop in Hin. simpl in Hin.
  destruct (find_body_calls p w) as [Hnone|(q & srt & Hsort & Hcalls)].
  { rewrite Hnone in Hin. destruct Hin. }
  rewrite Hcalls in Hin. destruct Hin as [Heq|[]]. injection Heq as <-.
  rewrite cur_skip_applied, cur_limit_applied, cur_sort_applied.
  split; [reflexivity|]. split; [reflexivity|].
  unfold sort_value in Hsort.
  destruct (truthy srt && has_keys srt && constructor_is_Object srt) eqn:Htests.
  - apply sort_tests in Htests as (o & -> & Hne & Hc).
    split; [intros _|discriminate].
    destruct (sort (opts p)) as [s|]; [|discriminate].
    simpl in Hsort. destruct (String.eqb s EmptyString) eqn:Hs;
      simpl in Hsort; [discriminate|].
    apply String.eqb_neq in Hs.
    exists s, o. repeat split; assumption.
  - split; [contradiction|]. intros (s & o & Hs & Hne & Hparse & Ho & Hc).
    rewrite Hs in Hsort. simpl in Hsort.
    apply String.eqb_neq in Hne. rewrite Hne in Hsort.
    simpl in Hsort. rewrite Hparse in Hsort. injection Hsort as <-.
    assert (Ht : truthy (VObj o) && has_keys (VObj o) && constructor_is_Object (VObj o) = true).
    { apply sort_tests. now exists o. }
    rewrite Ht in Htests. discriminate.
Qed.

End FindOptions.

(** C4 fails on the code: the sort string [{"constructor": 1}] is not
    empty and parses to a plain mapping with one key, yet find runs without
    a sort, because the test [sort.constructor === Object] reads the key
    [constructor] of the mapping itself. *)
Theorem sort_by_constructor_not_applied :
  EJSON_parse Sample.env Sample.sort_by_constructor = inr (VObj [("constructor", VNum 1)]) /\
  calls (trace_of (E := Sample.env) Sample.find_sorted_by_constructor [] 0%nat) =
  [Find {| cur_collection := "users"; cur_filter := VObj [];
           cur_skip := None; cur_limit := Some 5; cur_sort := None |}] /\
  ~ sort_applied_iff_mapping (E := Sample.env) Sample.find_sorted_by_constructor [] 0%nat.
Proof.
  split; [reflexivity|]. split; [reflexivity|].
  intros H.
  destruct (H {| cur_collection := "users"; cur_filter := VObj [];
                 cur_skip := None; cur_limit := Some 5; cur_sort := None |}
              (or_introl eq_refl)) as [_ Hback].
  apply Hback; [|reflexivity].
  exists Sample.sort_by_constructor, [("constructor", VNum 1)].
  repeat split; discriminate.
Qed.

(** ** Per-item operations *)

Section PerItem.

Context {E : Env}.
Variable p : params.
Variable items : list obj.
Variable v : item_verb.
Variable key : string.

Lemma build_filter_id (item filter item' : obj) (s0 s1 : state E) :
  build_filter "_id" item s0 = (inr (filter, item'), s1) ->
  exists id,
    new_ObjectId E (obj_get item "_id") (world s0) = (inr id, world s1) /\
    filter = [("_id", VObjectId id)] /\ item' = obj_delete item "_id".
Proof.
  unfold build_filter, bind, ret. simpl.
  destruct (lift (new_ObjectId E (obj_get item "_id")) s0) as [[e|id] s] eqn:Hl;
    [discriminate|].
  intros H. injection H as <- <- <-. apply lift_world in Hl.
  exists id. repeat split. exact Hl.
Qed.

Lemma build_filter_other (item filter item' : obj) (s0 s1 : state E) :
  key <> "_id" ->
  build_filter key item s0 = (inr (filter, item'), s1) ->
  filter = [(key, obj_get item key)] /\ item' = item /\ s1 = s0.
Proof.
  intros Hkey. unfold build_filter, ret.
  apply String.eqb_neq in Hkey. rewrite Hkey.
  intros H. injection H as <- <- <-. repeat split.
Qed.

(** Every call that one turn of the loop adds was sent for its item. *)
Lemma item_step_calls (item : obj) (s s' : state E) (r : error + obj) :
  item_step p v key item s = (r, s') ->
  exists new, calls (trace s') = calls (trace s) ++ new /\
              Forall (sent_for E p v key item) new.
Proof.
  unfold item_step. intros H.
  destruct (item_try p v key item s) as [r0 s1] eqn:Ht.
  assert (Hs : trace s' = trace s1).
  { destruct r0 as [[e item']|item']; [|now injection H as <- <-].
    unfold on_item_error in H.
    destruct (continueOnFail p); now injection H as <- <-. }
  rewrite Hs.
  destruct (item_try_trace p v key item s s1 r0 Ht)
    as [[Htr _]|(filter & item' & s0 & Hb & Htr)]; rewrite Htr.
  - exists []. now rewrite app_nil_r.
  - exists [item_call v (collection p) filter item' (upsert p)].
    rewrite calls_app. split; [reflexivity|].
    constructor; [|constructor]. now exists filter, item', s, s0.
Qed.

Lemma for_each_calls (docs : list obj) :
  forall (s s' : state E) (r : error + list obj),
    for_each (item_step p v key) docs s = (r, s') ->
    exists new, calls (trace s') = calls (trace s) ++ new /\
                Forall (fun c => exists item, In item docs /\ sent_for E p v key item c) new.
Proof.
  induction docs as [|item rest IH]; intros s s' r H; simpl in H.
  - injection H as <- <-. exists []. now rewrite app_nil_r.
  - unfold bind in H.
    destruct (item_step p v key item s) as [[e|out] s1] eqn:Hstep;
      destruct (item_step_calls item s s1 _ Hstep) as (new1 & Hc1 & Hf1).
    + injection H as <- <-. exists new1. split; [exact Hc1|].
      eapply Forall_impl; [|exact Hf1]. intros c Hc. exists item. simpl. auto.
    + destruct (for_each (item_step p v key) rest s1) as [[e|outs] s2] eqn:Hrest;
        destruct (IH s1 s2 _ Hrest) as (new2 & Hc2 & Hf2);
        injection H as <- <-; exists (new1 ++ new2);
        (split; [now rewrite Hc2, Hc1, app_assoc|]);
        apply Forall_app; (split;
          [eapply Forall_impl; [|exact Hf1]; intros c Hc; exists item; simpl; auto
          |eapply Forall_impl; [|exact Hf2];
           intros c (it & Hin & Hc); exists it; simpl; auto]).
Qed.


(** With continue-on-failure on, a turn of the loop never throws. *)
Lemma item_step_handled (item : obj) (s : state E) :
  continueOnFail p = true ->
  exists out s', item_step p v key item s = (inr out, s') /\
    (forall e item' st, item_try p v key item s = (inl (e, item'), st) ->
       out = obj_set item' "json" (VObj [("error", VStr (message e))]) /\ s' = st) /\
    (forall item' st, item_try p v key item s = (inr item', st) ->
       out = item' /\ s' = st).
Proof.
  intros Hcof. unfold item_step, on_item_error. rewrite Hcof.
  destruct (item_try p v key item s) as [[[e item']|item'] s1];
    eexists; eexists; (split; [reflexivity|]); split; intros; try discriminate;
    match goal with H : (_, _) = (_, _) |- _ => injection H as <- <- end;
    try match goal with H : _ = _ |- _ => injection H as <- <- end; now split.
Qed.

Lemma for_each_handled (docs : list obj) :
  continueOnFail p = true ->
  forall s : state E,
    exists outs s', for_each (item_step p v key) docs s = (inr outs, s') /\
                    length outs = length docs.
Proof.
  intros Hcof. induction docs as [|item rest IH]; intros s; simpl.
  - now exists [], s.
  - unfold bind, ret.
    destruct (item_step_handled item s Hcof) as (out & s1 & Hstep & _).
    rewrite Hstep. destruct (IH s1) as (outs & s2 & Hrest & Hlen).
    rewrite Hrest. exists (out :: outs), s2. simpl. now rewrite Hlen.
Qed.


End PerItem.

Section PerItemExecute.

Context {E : Env}.
Variable p : params.
Variable items : list obj.

(** [execute] on a per-item operation, in terms of its loop. *)
Lemma execute_per_item (v : item_verb) (w : W E) :
  per_item_verb (operation p) = Some v ->
  execute p items (init w) =
  match prepare p items (trim (updateKey p)) w with
  | (inl e, w1) => (inl e, connected w1)
  | (inr docs, w1) =>
      match for_each (item_step p v (trim (updateKey p))) docs (connected w1) with
      | (inl e, s) => (inl e, s)
      | (inr outs, s) => (inr (map stringifyObjectIDs (map VObj outs)), closed s)
      end
  end.
Proof.
  intros Hv. unfold execute, bind, log, init. simpl.
  rewrite (dispatch_per_item p items v Hv).
  unfold per_item_body, bind, lift, ret, prepare, connected. simpl.
  destruct (prepareItems E items _ _ _ _ _ w) as [[e|docs] w1]; [reflexivity|].
  now destruct (for_each _ docs _) as [[e|outs] s].
Qed.

(** Every call of a per-item invocation was sent for one of the
    normalized documents. *)
Lemma calls_per_item (v : item_verb) (w : W E) (c : call) :
  per_item_verb (operation p) = Some v ->
  In c (calls (trace_of p items w)) ->
  exists docs w1 item,
    prepare p items (trim (updateKey p)) w = (inr docs, w1) /\
    In item docs /\ sent_for E p v (trim (updateKey p)) item c.
Proof.
  intros Hv. unfold trace_of. rewrite (execute_per_item v w Hv).
  destruct (prepare p items (trim (updateKey p)) w) as [[e|docs] w1]; [intros []|].
  destruct (for_each _ docs (connected w1)) as [r s] eqn:Hloop.
  destruct (for_each_calls p v _ docs _ _ _ Hloop) as (new & Hcalls & Hnew).
  simpl in Hcalls.
  assert (Hin : In c (calls (trace (snd
            match r with
            | inl e => (inl e, s)
            | inr outs => (inr (map stringifyObjectIDs (map VObj outs)), closed s)
            end))) -> In c new).
  { destruct r; cbn [snd]; rewrite ?calls_closed, Hcalls; trivial. }
  intros H. apply Hin in H. rewrite Forall_forall in Hnew.
  destruct (Hnew c H) as (item & Hitem & Hsent).
  now exists docs, w1, item.
Qed.

End PerItemExecute.

Lemma call_filter_item_call (v : item_verb) (coll : string) (filter item : obj) (ups : bool) :
  call_filter (item_call v coll filter item ups) = Some filter.
Proof. destruct v; reflexivity. Qed.

Lemma call_document_item_call (v : item_verb) (coll : string) (filter item : obj) (ups : bool) :
  call_document (item_call v coll filter item ups) = Some item.
Proof. destruct v; reflexivity. Qed.

(** C3: in update, findOneAndUpdate and findOneAndReplace with the update
    key [_id], every call of the verb is made for one of the normalized
    items, its filter is the single key [_id] holding the [ObjectId] built
    from that item's [_id], and the document it sends is the item without
    its [_id] key. *)
Theorem identifier_key_kept_out_of_body {E : Env} (p : params) (items : list obj)
    (w : W E) (c : call) :
  In (operation p) per_item_operations ->
  trim (updateKey p) = "_id" ->
  In c (calls (trace_of p items w)) ->
  exists docs w1 item id,
    prepare p items "_id" w = (inr docs, w1) /\
    In item docs /\
    (exists w0 w0', new_ObjectId E (obj_get item "_id") w0 = (inr id, w0')) /\
    call_filter c = Some [("_id", VObjectId id)] /\
    call_document c = Some (obj_delete item "_id") /\
    obj_has (obj_delete item "_id") "_id" = false.
Proof.
  intros Hop Hkey Hin.
  destruct (operation_per_item_verb p Hop) as [v Hv].
  destruct (calls_per_item p items v w c Hv Hin)
    as (docs & w1 & item & Hprep & Hitem & filter & item' & s0 & s1 & Hb & ->).
  rewrite Hkey in Hprep, Hb.
  destruct (build_filter_id item filter item' s0 s1 Hb) as (id & Hnew & -> & ->).
  exists docs, w1, item, id.
  split; [exact Hprep|]. split; [exact Hitem|].
  split; [now exists (world s0), (world s1)|].
  split; [apply call_filter_item_call|].
  split; [apply call_document_item_call|apply obj_has_delete].
Qed.

Lemma identifier_key_kept_out_of_body_witness :
  exists docs w1 item id,
    prepare (E := Sample.env) Sample.replace_by_id
      [Sample.alice; Sample.bob; Sample.carol] "_id" 0%nat = (inr docs, w1) /\
    In item docs /\
    (exists w0 w0', Generic.to_ObjectId nat Sample.fresh_id (obj_get item "_id") w0
                    = (inr id, w0')) /\
    call_filter
      (FindOneAndReplace "users"
         [("_id", VObjectId [80; 127; 31; 119; 188; 248; 108; 215; 153; 67; 144; 17])]
         [("name", VStr "alice"); ("age", VNum 30)] false)
    = Some [("_id", VObjectId id)] /\
    call_document
      (FindOneAndReplace "users"
         [("_id", VObjectId [80; 127; 31; 119; 188; 248; 108; 215; 153; 67; 144; 17])]
         [("name", VStr "alice"); ("age", VNum 30)] false)
    = Some (obj_delete item "_id") /\
    obj_has (obj_delete item "_id") "_id" = false.
Proof.
  apply (identifier_key_kept_out_of_body (E := Sample.env) Sample.replace_by_id
           [Sample.alice; Sample.bob; Sample.carol] 0%nat).
  - simpl. tauto.
  - reflexivity.
  - vm_compute. left. reflexivity.
Defined.

(** C10: in update, findOneAndUpdate and findOneAndReplace with a
    non-empty update key other than [_id], every call of the verb is made
    for one of the normalized items, sends that item with nothing removed,
    and filters on the update key with the value the item has for it: the
    key reads the same in the filter and in the document sent. *)
Theorem update_key_stays_in_body {E : Env} (p : params) (items : list obj)
    (w : W E) (key : string) (c : call) :
  In (operation p) per_item_operations ->
  trim (updateKey p) = key ->
  key <> EmptyString ->
  key <> "_id" ->
  In c (calls (trace_of p items w)) ->
  exists docs w1 item filter,
    prepare p items key w = (inr docs, w1) /\
    In item docs /\
    call_filter c = Some filter /\
    filter = [(key, obj_get item key)] /\
    call_document c = Some item /\
    obj_get filter key = obj_get item key.
Proof.
  intros Hop Hkey _ Hid Hin.
  destruct (operation_per_item_verb p Hop) as [v Hv].
  destruct (calls_per_item p items v w c Hv Hin)
    as (docs & w1 & item & Hprep & Hitem & filter & item' & s0 & s1 & Hb & ->).
  rewrite Hkey in Hprep, Hb.
  destruct (build_filter_other key item filter item' s0 s1 Hid Hb) as (-> & -> & _).
  exists docs, w1, item, [(key, obj_get item key)].
  split; [exact Hprep|]. split; [exact Hitem|].
  split; [apply call_filter_item_call|]. split; [reflexivity|].
  split; [apply call_document_item_call|].
  simpl. now rewrite String.eqb_refl.
Qed.

Lemma update_key_stays_in_body_witness :
  exists docs w1 item filter,
    prepare (E := Sample.env) (Sample.update_by_name true)
      [Sample.alice; Sample.bob; Sample.carol] "name" 0%nat = (inr docs, w1) /\
    In item docs /\
    call_filter
      (UpdateOne "users" [("name", VStr "carol")]
         [("$set", VObj [("name", VStr "carol"); ("age", VNum 41)])] false)
    = Some filter /\
    filter = [("name", obj_get item "name")] /\
    call_document
      (UpdateOne "users" [("name", VStr "carol")]
         [("$set", VObj [("name", VStr "carol"); ("age", VNum 41)])] false)
    = Some item /\
    obj_get filter "name" = obj_get item "name".
Proof.
  apply (update_key_stays_in_body (E := Sample.env) (Sample.update_by_name true)
           [Sample.alice; Sample.bob; Sample.carol] 0%nat "name").
  - simpl. tauto.
  - reflexivity.
  - discriminate.
  - discriminate.
  - vm_compute. right. right. left. reflexivity.
Defined.




(** ** Runs in the sample world *)

(** Update by [name] with continue-on-failure off: the server rejects the
    second item, the third is never sent, and the client stays open. *)
Example update_aborts_at_first_failure :
  execute (E := Sample.env) (Sample.update_by_name false)
    [Sample.alice; Sample.bob; Sample.carol] (init (E := Sample.env) 0%nat) =
  (inl Sample.rejected,
   Build_state Sample.env 0%nat
     [EvConnect;
      EvCall (UpdateOne "users" [("name", VStr "alice")] (set_body Sample.alice) false);
      EvCall (UpdateOne "users" [("name", VStr "bob")] (set_body Sample.bob) false)]).
Proof. reflexivity. Qed.

(** Delete parses its query and hands it to [deleteMany] as it is: a
    string under [_id] stays a string. *)
Example delete_keeps_string_id :
  calls (trace_of (E := Sample.env) Sample.delete_hex_id [] 0%nat) =
  [DeleteMany "users" (VObj [("_id", VStr Sample.hex_id)])].
Proof. reflexivity. Qed.

(* ===================================================================== *)
(** * Further properties of [execute]                                     *)
(* ===================================================================== *)

(** ** What reaches the trace *)

Lemma calls_map_EvCall (cs : list call) : calls (map EvCall cs) = cs.
Proof. induction cs as [|c cs IH]; simpl; [reflexivity|now rewrite IH]. Qed.

Section Emits.

Context {E : Env}.
Variable P : call -> Prop.

Lemma emits_silent {A} (m : M E A) :
  (forall s r s', m s = (r, s') -> trace s' = trace s) -> emits P 0 m.
Proof.
  intros Hm s r s' H. exists []. simpl. rewrite app_nil_r.
  split; [exact (Hm _ _ _ H)|]. split; [constructor|lia].
Qed.

Lemma emits_weaken {A} (n n' : nat) (m : M E A) :
  emits P n m -> (n <= n')%nat -> emits P n' m.
Proof.
  intros Hm Hle s r s' H. destruct (Hm _ _ _ H) as (cs & Htr & HP & Hlen).
  exists cs. repeat split; [exact Htr|exact HP|lia].
Qed.

Lemma emits_ret {A} (a : A) : emits (E := E) P 0 (ret a).
Proof. apply emits_silent. intros s r s' H. now injection H as <- <-. Qed.

Lemma emits_throw {A} (e : error) : emits (E := E) (A := A) P 0 (throw e).
Proof. apply emits_silent. intros s r s' H. now injection H as <- <-. Qed.

Lemma emits_of_result {A} (x : error + A) : emits (E := E) P 0 (of_result x).
Proof. apply emits_silent. intros s r s' H. now injection H as <- <-. Qed.

Lemma emits_lift {A} (f : W E -> (error + A) * W E) : emits (E := E) P 0 (lift f).
Proof. apply emits_silent. intros s r s'. apply lift_trace. Qed.

Lemma emits_coerce_id (q : value) : emits (E := E) P 0 (coerce_id q).
Proof. apply emits_silent. intros s r s'. apply coerce_id_trace. Qed.

Lemma emits_verb {A} (c : call) (f : W E -> (error + A) * W E) :
  P c -> emits (E := E) P 1 (verb c f).
Proof.
  intros Hc s r s' H. apply verb_trace in H. exists [c].
  split; [exact H|]. split; [now constructor|simpl; lia].
Qed.

Lemma emits_bind {A B} (n1 n2 : nat) (m : M E A) (k : A -> M E B) :
  emits P n1 m -> (forall a, emits P n2 (k a)) -> emits (E := E) P (n1 + n2) (bind m k).
Proof.
  intros Hm Hk s r s' H. unfold bind in H.
  destruct (m s) as [[e|a] s1] eqn:Hms;
    destruct (Hm _ _ _ Hms) as (cs1 & Htr1 & HP1 & Hlen1).
  - injection H as <- <-. exists cs1. repeat split; [exact Htr1|exact HP1|lia].
  - destruct (Hk a _ _ _ H) as (cs2 & Htr2 & HP2 & Hlen2).
    exists (cs1 ++ cs2). split; [|split].
    + now rewrite Htr2, Htr1, map_app, app_assoc.
    + now apply Forall_app.
    + rewrite length_app. lia.
Qed.

Lemma emits_try_catch {A} (n1 n2 : nat) (m : M E A) (h : error -> M E A) :
  emits P n1 m -> (forall e, emits P n2 (h e)) ->
  emits (E := E) P (n1 + n2) (try_catch m h).
Proof.
  intros Hm Hh s r s' H. unfold try_catch in H.
  destruct (m s) as [[e|a] s1] eqn:Hms;
    destruct (Hm _ _ _ Hms) as (cs1 & Htr1 & HP1 & Hlen1).
  - destruct (Hh e _ _ _ H) as (cs2 & Htr2 & HP2 & Hlen2).
    exists (cs1 ++ cs2). split; [|split].
    + now rewrite Htr2, Htr1, map_app, app_assoc.
    + now apply Forall_app.
    + rewrite length_app. lia.
  - injection H as <- <-. exists cs1. repeat split; [exact Htr1|exact HP1|lia].
Qed.

Lemma emits_for_each {A B} (n : nat) (f : A -> M E B) (xs : list A) :
  (forall x, emits P n (f x)) -> emits (E := E) P (length xs * n) (for_each f xs).
Proof.
  intros Hf. induction xs as [|x rest IH]; simpl.
  - apply emits_ret.
  - apply emits_bind; [apply Hf|]. intros y.
    apply emits_weaken with (n := (length rest * n + 0)%nat); [|lia].
    apply emits_bind; [exact IH|]. intros ys. apply emits_ret.
Qed.

End Emits.

Section EmitsExecute.

Context {E : Env}.
Variable p : params.
Variable items : list obj.

Lemma call_of_item_call (v : item_verb) (filter item : obj) :
  per_item_verb (operation p) = Some v ->
  call_of p (item_call v (collection p) filter item (upsert p)).
Proof.
  unfold per_item_verb, call_of.
  destruct (String.eqb_spec (operation p) "findOneAndReplace") as [->|_].
  { intros H. injection H as <-. now split. }
  destruct (String.eqb_spec (operation p) "findOneAndUpdate") as [->|_].
  { intros H. injection H as <-. now split. }
  destruct (String.eqb_spec (operation p) "update") as [->|_].
  { intros H. injection H as <-. now split. }
  discriminate.
Qed.

Lemma emits_item_step (v : item_verb) (key : string) (item : obj) :
  per_item_verb (operation p) = Some v ->
  emits (E := E) (call_of p) 1 (item_step p v key item).
Proof.
  intros Hv s r s' H. unfold item_step in H.
  destruct (item_try p v key item s) as [r0 s1] eqn:Ht.
  assert (Hs : trace s' = trace s1).
  { destruct r0 as [[e item']|item']; [|now injection H as <- <-].
    unfold on_item_error in H.
    destruct (continueOnFail p); now injection H as <- <-. }
  rewrite Hs.
  destruct (item_try_trace p v key item s s1 r0 Ht)
    as [[Htr _]|(filter & item' & s0 & _ & Htr)]; rewrite Htr.
  - exists []. simpl. rewrite app_nil_r. split; [reflexivity|]. split; [constructor|lia].
  - exists [item_call v (collection p) filter item' (upsert p)].
    split; [reflexivity|]. split; [|simpl; lia].
    constructor; [|constructor]. now apply call_of_item_call.
Qed.

Lemma cur_collection_applied (k l : option Z) (srt q : value) :
  cur_collection (apply_sort srt (apply_limit l (apply_skip k (fresh_cursor p q)))) =
  collection p.
Proof. cursor_cases k l srt. Qed.

(** The [try] block of a whole-batch operation makes at most one call, of
    its own verb on the collection of the invocation. *)
Lemma emits_whole_batch_body :
  In (operation p) whole_batch_operations ->
  emits (E := E) (call_of p) 1 (whole_batch_body p items).
Proof.
  unfold whole_batch_operations, whole_batch_body, call_of.
  intros [H|[H|[H|[H|[]]]]]; rewrite <- H; simpl.
  - unfold aggregate_body.
    apply (emits_bind _ 0 1); [apply emits_of_result|intros q].
    apply (emits_bind _ 0 1); [apply emits_coerce_id|intros q'].
    apply emits_verb. now split.
  - unfold find_body.
    apply (emits_bind _ 0 1); [apply emits_of_result|intros q].
    apply (emits_bind _ 0 1); [apply emits_coerce_id|intros q'].
    apply (emits_bind _ 0 1); [apply emits_of_result|intros srt].
    apply emits_verb. split; [reflexivity|]. simpl. apply cur_collection_applied.
  - unfold insert_body.
    apply (emits_bind _ 0 1); [apply emits_lift|intros docs].
    apply (emits_weaken _ (1 + 0) 1); [|lia].
    apply emits_bind; [|intros ids; apply emits_ret].
    apply emits_verb. now split.
  - unfold delete_body.
    apply (emits_bind _ 0 1); [apply emits_of_result|intros q].
    apply (emits_weaken _ (1 + 0) 1); [|lia].
    apply emits_bind; [|intros n; apply emits_ret].
    apply emits_verb. now split.
Qed.

End EmitsExecute.

(** ** The three kinds of operation name *)

Lemma operation_cases (op : string) :
  (In op whole_batch_operations /\ per_item_verb op = None) \/
  (exists v, per_item_verb op = Some v) \/
  (~ In op recognized_operations /\ per_item_verb op = None /\
   existsb (String.eqb op) whole_batch_operations = false).
Proof.
  unfold per_item_verb, recognized_operations, whole_batch_operations. simpl.
  destruct (String.eqb_spec op "findOneAndReplace") as [->|H1];
    [right; left; eexists; reflexivity|].
  destruct (String.eqb_spec op "findOneAndUpdate") as [->|H2];
    [right; left; eexists; reflexivity|].
  destruct (String.eqb_spec op "update") as [->|H3];
    [right; left; eexists; reflexivity|].
  destruct (String.eqb_spec op "aggregate") as [->|H4]; [left; split; auto|].
  destruct (String.eqb_spec op "find") as [->|H5]; [left; split; auto|].
  destruct (String.eqb_spec op "insert") as [->|H6]; [left; split; auto|].
  destruct (String.eqb_spec op "delete") as [->|H7]; [left; split; auto 6|].
  right. right. split; [|split; reflexivity].
  intros [H|[H|[H|[H|[H|[H|[H|[]]]]]]]]; congruence.
Qed.

Lemma existsb_whole_batch (op : string) :
  In op whole_batch_operations ->
  existsb (String.eqb op) whole_batch_operations = true.
Proof.
  intros H. apply existsb_exists. exists op. split; [exact H|apply String.eqb_refl].
Qed.

(** The trace of an invocation: the connection, then verb calls of the
    operation on the collection, no more of them than [call_bound] allows,
    then the close if and only if the invocation returns. *)
Lemma execute_trace_calls {E : Env} (p : params) (items : list obj) (w : W E) :
  exists cs,
    trace_of p items w =
    EvConnect :: map EvCall cs ++
    (if returned (fst (execute p items (init w))) then [EvClose] else []) /\
    Forall (call_of p) cs /\
    (length cs <= call_bound p items w)%nat.
Proof.
  unfold trace_of, call_bound.
  destruct (operation_cases (operation p)) as [[Hop Hv]|[[v Hv]|(Hop & Hv & Hb)]].
  - rewrite Hv, (existsb_whole_batch _ Hop), (execute_whole_batch p items w Hop).
    destruct (whole_batch_body p items (connected w)) as [r s] eqn:Hbody.
    destruct (emits_whole_batch_body p items Hop _ _ _ Hbody) as (cs & Htr & HP & Hlen).
    simpl in Htr. exists cs.
    split; [|split; assumption].
    destruct r as [e|resp]; [destruct (continueOnFail p)|]; simpl; rewrite Htr;
      simpl; rewrite ?app_nil_r, <- ?app_assoc; reflexivity.
  - rewrite Hv, (execute_per_item p items v w Hv).
    destruct (prepare p items (trim (updateKey p)) w) as [[e|docs] w1].
    + exists []. simpl. repeat split; [constructor|lia].
    + destruct (for_each (item_step p v (trim (updateKey p))) docs (connected w1))
        as [r s] eqn:Hloop.
      destruct (emits_for_each (call_of p) 1 _ docs
                  (fun item => emits_item_step p v _ item Hv) _ _ _ Hloop)
        as (cs & Htr & HP & Hlen).
      simpl in Htr. exists cs.
      split; [|split; [assumption|lia]].
      destruct r as [e|outs]; simpl; rewrite Htr; simpl;
        rewrite ?app_nil_r, <- ?app_assoc; reflexivity.
  - rewrite Hv, Hb. exists []. split; [|split; [constructor|simpl; lia]].
    unfold execute, bind. rewrite (dispatch_unsupported p items Hop).
    destruct (continueOnFail p); reflexivity.
Qed.

Lemma calls_shape (cs : list call) (tail : bool) :
  calls (EvConnect :: map EvCall cs ++ (if tail then [EvClose] else [])) = cs.
Proof.
  simpl. rewrite calls_app, calls_map_EvCall.
  destruct tail; simpl; apply app_nil_r.
Qed.

(** X1: the client is connected first, every verb call comes after that,
    and the client is closed last, after all the calls, exactly when the
    invocation returns; an invocation that throws leaves it open. *)
Theorem connect_calls_close {E : Env} (p : params) (items : list obj) (w : W E) :
  trace_of p items w =
  EvConnect :: map EvCall (calls (trace_of p items w)) ++
  (if returned (fst (execute p items (init w))) then [EvClose] else []).
Proof.
  destruct (execute_trace_calls p items w) as (cs & Htr & _ & _).
  rewrite Htr at 2. now rewrite calls_shape.
Qed.

(** X2: an invocation makes at most one verb call for aggregate, find,
    insert and delete, at most one per normalized item for update,
    findOneAndUpdate and findOneAndReplace, and none when the normalizer of
    a per-item operation throws or the operation is not recognized. *)
Theorem calls_bounded {E : Env} (p : params) (items : list obj) (w : W E) :
  (length (calls (trace_of p items w)) <= call_bound p items w)%nat.
Proof.
  destruct (execute_trace_calls p items w) as (cs & Htr & _ & Hlen).
  now rewrite Htr, calls_shape.
Qed.

(** X3: every verb call of an invocation is a call of the verb that the
    operation names, on the collection that the invocation names: find
    never deletes, update never inserts. *)
Theorem calls_match_operation {E : Env} (p : params) (items : list obj) (w : W E)
    (c : call) :
  In c (calls (trace_of p items w)) ->
  call_operation c = operation p /\ call_collection c = collection p.
Proof.
  destruct (execute_trace_calls p items w) as (cs & Htr & HP & _).
  rewrite Htr, calls_shape. intros Hin.
  rewrite Forall_forall in HP. exact (HP c Hin).
Qed.

Lemma calls_match_operation_witness :
  call_operation (UpdateOne "users" [("name", VStr "bob")] (set_body Sample.bob) false)
  = "update" /\
  call_collection (UpdateOne "users" [("name", VStr "bob")] (set_body Sample.bob) false)
  = "users".
Proof.
  apply (calls_match_operation (E := Sample.env) (Sample.update_by_name false)
           [Sample.alice; Sample.bob; Sample.carol] 0%nat).
  vm_compute. right. left. reflexivity.
Defined.

(** ** What continue-on-failure does not catch *)

(** X4: with continue-on-failure on, an invocation throws exactly when its
    operation is update, findOneAndUpdate or findOneAndReplace and
    [prepareItems] throws: the normalizer of these operations runs outside
    every [try].  The error is the normalizer's, no verb has been called and
    the client is left connected. *)
Theorem thrown_despite_continue_on_fail {E : Env} (p : params) (items : list obj)
    (w : W E) (e : error) (s : state E) :
  continueOnFail p = true ->
  (execute p items (init w) = (inl e, s) <->
   In (operation p) per_item_operations /\
   exists w1, prepare p items (trim (updateKey p)) w = (inl e, w1) /\ s = connected w1).
Proof.
  intros Hcof.
  destruct (operation_cases (operation p)) as [[Hop Hv]|[[v Hv]|(Hop & Hv & _)]].
  - rewrite (execute_whole_batch p items w Hop), Hcof. split.
    + destruct (whole_batch_body p items (connected w)) as [[e0|resp] s0]; discriminate.
    + intros [Hitem _]. destruct (operation_per_item_verb p Hitem) as [v Hv'].
      congruence.
  - rewrite (execute_per_item p items v w Hv).
    assert (Hitem : In (operation p) per_item_operations).
    { unfold per_item_verb in Hv. unfold per_item_operations.
      destruct (String.eqb_spec (operation p) "findOneAndReplace") as [->|_]; [simpl; auto|].
      destruct (String.eqb_spec (operation p) "findOneAndUpdate") as [->|_]; [simpl; auto|].
      destruct (String.eqb_spec (operation p) "update") as [->|_]; [simpl; auto|].
      discriminate. }
    destruct (prepare p items (trim (updateKey p)) w) as [[e0|docs] w1].
    + split.
      * intros H. injection H as <- <-. split; [exact Hitem|]. now exists w1.
      * intros [_ (w2 & H & ->)]. now injection H as <- <-.
    + destruct (for_each_handled p v (trim (updateKey p)) docs Hcof (connected w1))
        as (outs & s1 & Hloop & _).
      rewrite Hloop. split; [discriminate|].
      intros [_ (w2 & H & _)]. discriminate.
  - split.
    + unfold execute, bind. rewrite (dispatch_unsupported p items Hop), Hcof.
      discriminate.
    + intros [Hitem _]. destruct (operation_per_item_verb p Hitem) as [v Hv'].
      congruence.
Qed.

Lemma thrown_despite_continue_on_fail_witness :
  execute (E := Sample.env) Cases.update_name_as_id [Sample.alice]
    (init (E := Sample.env) 0%nat) =
  (inl Cases.coercion_error, connected (E := Sample.env) 0%nat).
Proof.
  apply (proj2 (thrown_despite_continue_on_fail (E := Sample.env) Cases.update_name_as_id
                  [Sample.alice] 0%nat Cases.coercion_error
                  (connected (E := Sample.env) 0%nat) eq_refl)).
  split; [simpl; tauto|]. exists 0%nat. split; reflexivity.
Defined.

(** ** Queries that need no coercion *)

Section PlainQueries.

Context {E : Env}.
Variable p : params.
Variable items : list obj.

Lemma coerce_id_unchanged (q id : value) (s : state E) :
  get_id q = inr id -> truthy id && is_string id = false ->
  coerce_id q s = (inr q, s).
Proof.
  intros Hget Htest. unfold coerce_id, bind, of_result, ret.
  now rewrite Hget, Htest.
Qed.

Lemma find_body_sort_error (w : W E) (e : error) :
  sort_value (E := E) p = inl e ->
  calls (trace (snd (find_body p (connected w)))) = [].
Proof.
  intros Hsort.
  destruct (find_body_calls p w) as [Hnone|(q & srt & Hsrt & _)]; [exact Hnone|].
  congruence.
Qed.

End PlainQueries.

(** X5: in aggregate and find, a parsed query whose [_id] is absent, empty
    or not a string (an [ObjectId] written as [$oid], a number) reaches the
    verb exactly as it was parsed: aggregate calls the verb once with it,
    and every call of find carries it as its filter. *)
Theorem query_reaches_verb_as_parsed {E : Env} (p : params) (items : list obj)
    (w : W E) (q id : value) :
  In (operation p) ["aggregate"; "find"] ->
  EJSON_parse E (query p) = inr q ->
  get_id q = inr id ->
  truthy id && is_string id = false ->
  (forall c, In c (calls (trace_of p items w)) -> call_query c = Some q) /\
  (operation p = "aggregate" ->
   calls (trace_of p items w) = [Aggregate (collection p) q]).
Proof.
  intros Hop Hparse Hget Htest.
  assert (Hbatch : In (operation p) whole_batch_operations).
  { destruct Hop as [H|[H|[]]]; rewrite <- H; simpl; tauto. }
  rewrite (calls_whole_batch p items w Hbatch). unfold whole_batch_body.
  destruct Hop as [Hop|[Hop|[]]]; rewrite <- Hop; simpl.
  - assert (Hcalls : calls (trace (snd (aggregate_body p (connected w)))) =
                     [Aggregate (collection p) q]).
    { unfold aggregate_body, bind, of_result.
      rewrite Hparse, (coerce_id_unchanged q id _ Hget Htest).
      run_verb_call Hv. simpl. rewrite Hv. reflexivity. }
    rewrite Hcalls. split; [|reflexivity].
    intros c [<-|[]]. reflexivity.
  - split; [|discriminate].
    unfold find_body, bind, of_result.
    rewrite Hparse, (coerce_id_unchanged q id _ Hget Htest).
    destruct (sort_value p) as [e|srt]; [intros c []|].
    run_verb_call Hv. simpl. rewrite Hv. simpl.
    intros c [<-|[]]. simpl. f_equal. apply cur_filter_applied.
Qed.

Lemma query_reaches_verb_as_parsed_witness :
  (forall c,
      In c (calls (trace_of (E := Sample.env) Sample.find_blank_id [] 0%nat)) ->
      call_query c = Some (VObj [("_id", VStr EmptyString)])) /\
  (operation Sample.find_blank_id = "aggregate" ->
   calls (trace_of (E := Sample.env) Sample.find_blank_id [] 0%nat) =
   [Aggregate (collection Sample.find_blank_id) (VObj [("_id", VStr EmptyString)])]).
Proof.
  apply (query_reaches_verb_as_parsed (E := Sample.env) Sample.find_blank_id [] 0%nat
           (VObj [("_id", VStr EmptyString)]) (VStr EmptyString)).
  - simpl. tauto.
  - reflexivity.
  - reflexivity.
  - reflexivity.
Defined.

(** X6: delete hands the parsed query to [deleteMany] as it is, whatever it
    is (a string under [_id] stays a string, [null] stays [null]), in one
    call, and answers with the single record [{ deletedCount }] that the
    driver reported. *)
Theorem delete_passes_query_through {E : Env} (p : params) (items : list obj)
    (w w1 : W E) (q : value) (n : Z) :
  operation p = "delete" ->
  EJSON_parse E (query p) = inr q ->
  deleteMany E (collection p) q w = (inr n, w1) ->
  execute p items (init w) =
  (inr [VObj [("deletedCount", VNum n)]],
   {| world := w1;
      trace := [EvConnect; EvCall (DeleteMany (collection p) q); EvClose] |}).
Proof.
  intros Hop Hparse Hdel.
  rewrite execute_whole_batch by (rewrite Hop; simpl; tauto).
  unfold whole_batch_body. rewrite Hop. simpl.
  unfold delete_body, bind, of_result, verb, bind, log, lift, ret, connected. simpl.
  rewrite Hparse. simpl. rewrite Hdel. reflexivity.
Qed.

Lemma delete_passes_query_through_witness :
  execute (E := Sample.env) Sample.delete_hex_id [] (init (E := Sample.env) 0%nat) =
  (inr [VObj [("deletedCount", VNum 0)]],
   Build_state Sample.env 0%nat
     [EvConnect;
      EvCall (DeleteMany "users" (VObj [("_id", VStr Sample.hex_id)]));
      EvClose]).
Proof.
  apply (delete_passes_query_through (E := Sample.env) Sample.delete_hex_id [] 0%nat 0%nat
           (VObj [("_id", VStr Sample.hex_id)]) 0); reflexivity.
Defined.

(** X7: when the sort string of find is not empty and does not parse, no
    verb is called, whatever the query is: the sort is parsed before the
    cursor is run. *)
Theorem unparsed_sort_stops_find {E : Env} (p : params) (items : list obj)
    (w : W E) (s : string) (e : error) :
  operation p = "find" ->
  sort (opts p) = Some s ->
  s <> EmptyString ->
  EJSON_parse E s = inl e ->
  calls (trace_of p items w) = [].
Proof.
  intros Hop Hsort Hne Hparse.
  rewrite calls_whole_batch by (rewrite Hop; simpl; tauto).
  unfold whole_batch_body. rewrite Hop. simpl.
  apply find_body_sort_error with (e := e).
  unfold sort_value. rewrite Hsort. simpl.
  apply String.eqb_neq in Hne. now rewrite Hne.
Qed.

Lemma unparsed_sort_stops_find_witness :
  calls (trace_of (E := Sample.env) Cases.find_bad_sort [] 0%nat) = [].
Proof.
  apply (unparsed_sort_stops_find (E := Sample.env) Cases.find_bad_sort [] 0%nat
           Sample.malformed (ParseError "Unexpected end of JSON input"));
    [reflexivity | reflexivity | discriminate | reflexivity].
Defined.

(** X8: when the query of aggregate or find parses to [null], reading its
    [_id] throws before any verb is called; the error follows the
    whole-batch policy: the single error record with continue-on-failure,
    the throw without it. *)
Theorem null_query_throws_before_verb {E : Env} (p : params) (items : list obj)
    (w : W E) :
  In (operation p) ["aggregate"; "find"] ->
  EJSON_parse E (query p) = inr VNull ->
  exists e,
    get_id VNull = inl e /\
    calls (trace_of p items w) = [] /\
    execute p items (init w) =
    if continueOnFail p then (inr [error_record e], closed (connected w))
    else (inl e, connected w).
Proof.
  intros Hop Hparse.
  assert (Hbatch : In (operation p) whole_batch_operations).
  { destruct Hop as [H|[H|[]]]; rewrite <- H; simpl; tauto. }
  exists (TypeError "Cannot read properties of null").
  split; [reflexivity|].
  assert (Hbody : whole_batch_body p items (connected w) =
                  (inl (TypeError "Cannot read properties of null"), connected w)).
  { unfold whole_batch_body.
    destruct Hop as [Hop|[Hop|[]]]; rewrite <- Hop; simpl;
      [unfold aggregate_body|unfold find_body];
      unfold bind, of_result, coerce_id, bind, of_result; now rewrite Hparse. }
  split.
  - now rewrite (calls_whole_batch p items w Hbatch), Hbody.
  - now rewrite (execute_whole_batch p items w Hbatch), Hbody.
Qed.

Lemma null_query_throws_before_verb_witness :
  exists e,
    get_id VNull = inl e /\
    calls (trace_of (E := Cases.env) Cases.find_null [] 0%nat) = [] /\
    execute (E := Cases.env) Cases.find_null [] (init (E := Cases.env) 0%nat) =
    (inr [error_record e], closed (connected (E := Cases.env) 0%nat)).
Proof.
  apply (null_query_throws_before_verb (E := Cases.env) Cases.find_null [] 0%nat).
  - simpl. tauto.
  - reflexivity.
Defined.

Lemma find_options_applied_witness :
  cur_skip
    {| cur_collection := "users"; cur_filter := VObj []; cur_skip := None;
       cur_limit := Some 5; cur_sort := Some (VObj [("name", VNum 1)]) |} = None /\
  cur_limit
    {| cur_collection := "users"; cur_filter := VObj []; cur_skip := None;
       cur_limit := Some 5; cur_sort := Some (VObj [("name", VNum 1)]) |} = Some 5 /\
  (cur_sort
     {| cur_collection := "users"; cur_filter := VObj []; cur_skip := None;
        cur_limit := Some 5; cur_sort := Some (VObj [("name", VNum 1)]) |} <> None <->
   exists s o, sort (opts Cases.find_sorted_by_name) = Some s /\ s <> EmptyString /\
               EJSON_parse Sample.env s = inr (VObj o) /\ o <> [] /\
               obj_has o "constructor" = false).
Proof.
  apply (find_options_applied (E := Sample.env) Cases.find_sorted_by_name [] 0%nat).
  - reflexivity.
  - vm_compute. left. reflexivity.
Defined.

(** ** What the per-item operations return *)

Section PerItemResponse.

Context {E : Env}.
Variable p : params.
Variable v : item_verb.
Variable key : string.

Lemma build_filter_sent (item filter item' : obj) (s0 s1 : state E) :
  build_filter key item s0 = (inr (filter, item'), s1) ->
  item' = sent_item key item.
Proof.
  unfold build_filter, sent_item, bind, ret.
  destruct (String.eqb key "_id").
  - destruct (lift (new_ObjectId E (obj_get item key)) s0) as [[e|id] s]; [discriminate|].
    intros H. now injection H as _ <- _.
  - intros H. now injection H as _ <- _.
Qed.

Lemma build_filter_throws (item : obj) (e : error) (s0 s1 : state E) :
  build_filter key item s0 = (inl e, s1) -> key = "_id".
Proof.
  unfold build_filter, ret.
  destruct (String.eqb_spec key "_id") as [->|_]; [reflexivity|discriminate].
Qed.

Lemma item_step_left (item out : obj) (s s' : state E) :
  item_step p v key item s = (inr out, s') -> left_as p key item out.
Proof.
  unfold item_step, item_try, on_item_error.
  destruct (build_filter key item s) as [[e|[filter item']] s1] eqn:Hb.
  - destruct (continueOnFail p) eqn:Hcof; [|discriminate].
    intros H. injection H as <- _.
    apply left_uncoerced; [exact Hcof|exact (build_filter_throws _ _ _ _ Hb)].
  - rewrite (build_filter_sent _ _ _ _ _ Hb).
    destruct (run_verb p v filter (sent_item key item) s1) as [[e|[]] s2].
    + destruct (continueOnFail p) eqn:Hcof; [|discriminate].
      intros H. injection H as <- _. now apply left_failed.
    + intros H. injection H as <- _. apply left_sent.
Qed.

Lemma for_each_left (docs : list obj) :
  forall (outs : list obj) (s s' : state E),
    for_each (item_step p v key) docs s = (inr outs, s') ->
    Forall2 (left_as p key) docs outs.
Proof.
  induction docs as [|item rest IH]; intros outs s s' H; simpl in H.
  - injection H as <- _. constructor.
  - unfold bind, ret in H.
    destruct (item_step p v key item s) as [[e|out] s1] eqn:Hstep; [discriminate|].
    destruct (for_each (item_step p v key) rest s1) as [[e|outs'] s2] eqn:Hrest;
      [discriminate|].
    injection H as <- _. constructor.
    + exact (item_step_left _ _ _ _ Hstep).
    + exact (IH _ _ _ Hrest).
Qed.

End PerItemResponse.

(** The response of a per-item operation is the list of normalized items
    as the loop left them. *)
Lemma per_item_response {E : Env} (p : params) (items docs : list obj) (w w1 : W E)
    (v : item_verb) (resp : list value) (s : state E) :
  per_item_verb (operation p) = Some v ->
  prepare p items (trim (updateKey p)) w = (inr docs, w1) ->
  dispatch p items (connected w) = (inr resp, s) ->
  exists outs, resp = map VObj outs /\
               Forall2 (left_as p (trim (updateKey p))) docs outs.
Proof.
  intros Hv Hprep. rewrite (dispatch_per_item p items v Hv).
  unfold per_item_body, bind, lift, ret, connected. simpl.
  unfold prepare in Hprep. rewrite Hprep.
  destruct (for_each _ docs _) as [[e|outs] s1] eqn:Hloop; [discriminate|].
  intros H. injection H as <- _. exists outs. split; [reflexivity|].
  exact (for_each_left p v _ docs outs _ _ Hloop).
Qed.

(** X10: the response of update, findOneAndUpdate and findOneAndReplace
    is built from the normalized items, not from what the database
    answered: it has one record per item, in order, and each record is the
    item as it was sent, or that item with the error record under [json]
    when its turn failed and continue-on-failure is on.  With
    continue-on-failure off a response holds the items as they were sent. *)
Theorem per_item_response_is_the_items {E : Env} (p : params) (items docs : list obj)
    (w w1 : W E) (resp : list value) (s : state E) :
  In (operation p) per_item_operations ->
  prepare p items (trim (updateKey p)) w = (inr docs, w1) ->
  dispatch p items (connected w) = (inr resp, s) ->
  Forall2 (fun item record =>
             exists out, record = VObj out /\ left_as p (trim (updateKey p)) item out)
          docs resp /\
  (continueOnFail p = false ->
   resp = map (fun item => VObj (sent_item (trim (updateKey p)) item)) docs).
Proof.
  intros Hop Hprep Hresp.
  destruct (operation_per_item_verb p Hop) as [v Hv].
  destruct (per_item_response p items docs w w1 v resp s Hv Hprep Hresp)
    as (outs & -> & Hleft).
  clear Hprep Hresp.
  split.
  - induction Hleft as [|item out docs' outs' Hout _ IH]; simpl; constructor.
    + now exists out.
    + exact IH.
  - intros Hcof.
    induction Hleft as [|item out docs' outs' Hout _ IH]; simpl; [reflexivity|].
    rewrite IH. f_equal.
    destruct Hout as [|e Hcof' _|e Hcof']; [reflexivity|congruence|congruence].
Qed.

Lemma per_item_response_is_the_items_witness :
  Forall2 (fun item record =>
             exists out, record = VObj out /\
                         left_as (Sample.update_by_name true) "name" item out)
          [Sample.alice; Sample.bob]
          [VObj Sample.alice;
           VObj (obj_set Sample.bob "json" (error_record Sample.rejected))] /\
  (continueOnFail (Sample.update_by_name true) = false ->
   [VObj Sample.alice; VObj (obj_set Sample.bob "json" (error_record Sample.rejected))] =
   map (fun item => VObj (sent_item "name" item)) [Sample.alice; Sample.bob]).
Proof.
  apply (per_item_response_is_the_items (E := Sample.env) (Sample.update_by_name true)
           [Sample.alice; Sample.bob] [Sample.alice; Sample.bob] 0%nat 0%nat _
           (Build_state Sample.env 0%nat
              [EvConnect;
               EvCall (UpdateOne "users" [("name", VStr "alice")] (set_body Sample.alice) false);
               EvCall (UpdateOne "users" [("name", VStr "bob")] (set_body Sample.bob) false)])).
  - simpl. tauto.
  - reflexivity.
  - reflexivity.
Defined.

(** X11: with the update key [_id], a record of the response of update,
    findOneAndUpdate or findOneAndReplace has no [_id] key, unless it
    carries an error record under [json]: the [_id] that was deleted for
    the call is deleted in the response too. *)
Theorem per_item_response_loses_id {E : Env} (p : params) (items docs : list obj)
    (w w1 : W E) (resp : list value) (s : state E) (record : value) :
  In (operation p) per_item_operations ->
  trim (updateKey p) = "_id" ->
  prepare p items "_id" w = (inr docs, w1) ->
  dispatch p items (connected w) = (inr resp, s) ->
  In record resp ->
  exists out, record = VObj out /\
              (obj_has out "_id" = false \/
               exists e, obj_get out "json" = error_record e).
Proof.
  intros Hop Hkey Hprep Hresp Hin.
  destruct (operation_per_item_verb p Hop) as [v Hv].
  rewrite <- Hkey in Hprep.
  destruct (per_item_response p items docs w w1 v resp s Hv Hprep Hresp)
    as (outs & -> & Hleft).
  apply in_map_iff in Hin as (out & <- & Hout).
  exists out. split; [reflexivity|].
  rewrite Hkey in Hleft.
  assert (Hsome : exists item, left_as p "_id" item out).
  { clear - Hleft Hout. induction Hleft as [|item o docs' outs' Ho _ IH]; [destruct Hout|].
    destruct Hout as [<-|Hout]; [now exists item|exact (IH Hout)]. }
  destruct Hsome as [item [|e _ _|e _]].
  - left. apply obj_has_delete.
  - right. exists e. apply obj_get_set_same.
  - right. exists e. apply obj_get_set_same.
Qed.

Lemma per_item_response_loses_id_witness :
  exists out, VObj [("name", VStr "alice"); ("age", VNum 30)] = VObj out /\
              (obj_has out "_id" = false \/
               exists e, obj_get out "json" = error_record e).
Proof.
  apply (per_item_response_loses_id (E := Sample.env) Sample.replace_by_id
           [Sample.alice] [Sample.alice] 0%nat 0%nat
           [VObj [("name", VStr "alice"); ("age", VNum 30)]]
           (Build_state Sample.env 0%nat
              [EvConnect;
               EvCall (FindOneAndReplace "users"
                         [("_id", VObjectId [80; 127; 31; 119; 188; 248; 108; 215;
                                             153; 67; 144; 17])]
                         [("name", VStr "alice"); ("age", VNum 30)] false)])).
  - simpl. tauto.
  - reflexivity.
  - reflexivity.
  - reflexivity.
  - left. reflexivity.
Defined.

(** ** No items *)

(** X12: when the normalizer returns no document, update, findOneAndUpdate
    and findOneAndReplace call no verb and return the empty response, while
    insert still calls [insertMany], once, with the empty list. *)
Theorem nothing_to_send {E : Env} (p : params) (items : list obj) (w w1 : W E) :
  (In (operation p) per_item_operations ->
   prepare p items (trim (updateKey p)) w = (inr [], w1) ->
   execute p items (init w) = (inr [], closed (connected w1))) /\
  (operation p = "insert" ->
   prepare p items EmptyString w = (inr [], w1) ->
   calls (trace_of p items w) = [InsertMany (collection p) []]).
Proof.
  split.
  - intros Hop Hprep. destruct (operation_per_item_verb p Hop) as [v Hv].
    now rewrite (execute_per_item p items v w Hv), Hprep.
  - intros Hop Hprep.
    rewrite calls_whole_batch by (rewrite Hop; simpl; tauto).
    unfold whole_batch_body. rewrite Hop. simpl.
    unfold insert_body, bind, lift, ret, connected. simpl.
    unfold prepare in Hprep. rewrite Hprep.
    run_verb_call Hv.
    match goal with
    | |- context [match ?x with inl _ => _ | inr _ => _ end] => destruct x
    end; simpl; rewrite Hv; reflexivity.
Qed.

Lemma nothing_to_send_witness :
  execute (E := Sample.env) (Sample.update_by_name false) []
    (init (E := Sample.env) 0%nat) =
  (inr [], closed (connected (E := Sample.env) 0%nat)) /\
  calls (trace_of (E := Sample.env) Sample.insert_all [] 0%nat) =
  [InsertMany "users" []].
Proof.
  split.
  - apply (proj1 (nothing_to_send (E := Sample.env) (Sample.update_by_name false)
                    [] 0%nat 0%nat)); [simpl; tauto|reflexivity].
  - apply (proj2 (nothing_to_send (E := Sample.env) Sample.insert_all
                    [] 0%nat 0%nat)); reflexivity.
Defined.

(* ===================================================================== *)
(** * Properties of [mongoDbCredentialTest]                               *)
(* ===================================================================== *)

(** X13: the credential test answers [OK] exactly when the client
    connects, the databases can be listed and the database of the
    credentials, trimmed (an unset one counts as the empty name), is among
    them; every other answer is [Error]. *)
Theorem credential_test_ok (A : Admin) (credential : credentials) (w : AW A) :
  (status (fst (mongoDbCredentialTest A credential w)) = "OK" <->
   exists w1 w2 databases,
     connectMongoClient A (connection_target A credential) credential w = (inr tt, w1) /\
     listDatabases A w1 = (inr databases, w2) /\
     In (trim (or_empty (database credential))) databases) /\
  (status (fst (mongoDbCredentialTest A credential w)) = "OK" \/
   status (fst (mongoDbCredentialTest A credential w)) = "Error").
Proof.
  unfold mongoDbCredentialTest.
  destruct (connectMongoClient A (connection_target A credential) credential w)
    as [[e|[]] w1] eqn:Hconnect.
  { split; [|right; reflexivity]. split; [discriminate|].
    intros (w1' & w2 & dbs & H & _). discriminate. }
  destruct (listDatabases A w1) as [[e|dbs] w2] eqn:Hlist.
  { split; [|right; reflexivity]. split; [discriminate|].
    intros (w1' & w2' & dbs & H1 & H2 & _). injection H1 as <-.
    rewrite Hlist in H2. discriminate. }
  destruct (existsb (String.eqb (trim (or_empty (database credential)))) dbs) eqn:Hin.
  - split; [|left; reflexivity]. split; [intros _|reflexivity].
    apply existsb_exists in Hin as (name & Hname & Heq).
    apply String.eqb_eq in Heq. subst name.
    now exists w1, w2, dbs.
  - split; [|right; reflexivity]. split; [discriminate|].
    intros (w1' & w2' & dbs' & H1 & H2 & Hname). injection H1 as <-.
    rewrite Hlist in H2. injection H2 as <- _.
    assert (Hex : existsb (String.eqb (trim (or_empty (database credential)))) dbs = true).
    { apply existsb_exists. eexists. split; [exact Hname|apply String.eqb_refl]. }
    congruence.
Qed.

Lemma credential_test_ok_witness :
  status (fst (mongoDbCredentialTest Cases.admin Cases.shop tt)) = "OK".
Proof.
  apply (proj2 (proj1 (credential_test_ok Cases.admin Cases.shop tt))).
  exists tt, tt, ["admin"; "shop"].
  split; [reflexivity|]. split; [reflexivity|]. right. left. reflexivity.
Defined.

(** X14: the credential test closes the client it opened exactly when it
    answers [OK]; when it answers [Error] the client is never closed, and
    if the connection had succeeded it is left connected. *)
Theorem credential_test_session (A : Admin) (credential : credentials) (w : AW A) :
  (status (fst (mongoDbCredentialTest A credential w)) = "OK" ->
   snd (snd (mongoDbCredentialTest A credential w)) = [EvConnect; EvClose]) /\
  (status (fst (mongoDbCredentialTest A credential w)) = "Error" ->
   closes (snd (snd (mongoDbCredentialTest A credential w))) = 0%nat /\
   forall w1,
     connectMongoClient A (connection_target A credential) credential w = (inr tt, w1) ->
     snd (snd (mongoDbCredentialTest A credential w)) = [EvConnect]).
Proof.
  unfold mongoDbCredentialTest.
  destruct (connectMongoClient A (connection_target A credential) credential w)
    as [[e|[]] w1].
  { split; [discriminate|]. intros _. split; [reflexivity|]. discriminate. }
  destruct (listDatabases A w1) as [[e|dbs] w2].
  { split; [discriminate|]. intros _. split; reflexivity. }
  destruct (existsb (String.eqb (trim (or_empty (database credential)))) dbs).
  - split; [reflexivity|discriminate].
  - split; [discriminate|]. intros _. split; reflexivity.
Qed.

Lemma credential_test_session_witness :
  closes (snd (snd (mongoDbCredentialTest Cases.admin Cases.stock tt))) = 0%nat /\
  forall w1,
    connectMongoClient Cases.admin (connection_target Cases.admin Cases.stock)
      Cases.stock tt = (inr tt, w1) ->
    snd (snd (mongoDbCredentialTest Cases.admin Cases.stock tt)) = [EvConnect].
Proof.
  apply (proj2 (credential_test_session Cases.admin Cases.stock tt)). reflexivity.
Defined.

(** ** White space around keys and names *)

(** [trim] removes the Unicode spaces as well as the ASCII ones. *)
Example trim_unicode_spaces :
  trim (Cases.nbsp ++ " " ++ Cases.bom ++ "_id" ++ Cases.line_separator ++ Cases.nbsp)%string
  = "_id".
Proof. reflexivity. Qed.

(** An update key that is [_id] between Unicode spaces takes the [_id]
    branch: the filter holds the [ObjectId] and the body has no [_id]. *)
Example update_by_padded_id_is_by_id :
  calls (trace_of (E := Sample.env) Cases.update_by_padded_id [Sample.alice] 0%nat) =
  [UpdateOne "users"
     [("_id", VObjectId [80; 127; 31; 119; 188; 248; 108; 215; 153; 67; 144; 17])]
     (set_body [("name", VStr "alice"); ("age", VNum 30)]) false].
Proof. reflexivity. Qed.

(** A database name followed by a no-break space is found. *)
Example credential_test_trims_unicode :
  status (fst (mongoDbCredentialTest Cases.admin Cases.shop_padded tt)) = "OK".
Proof. reflexivity. Qed.

(** Replace by [_id] with continue-on-failure on: the second item's [_id]
    is refused by the [ObjectId] constructor, so it gets no call and the
    error record, with its [_id] still there; the items around it get their
    calls. *)
Example replace_by_id_around_a_refused_id :
  execute (E := Sample.env) Sample.replace_by_id
    [Sample.alice; Cases.dave; Sample.carol] (init (E := Sample.env) 0%nat) =
  (inr [VObj [("name", VStr "alice"); ("age", VNum 30)];
        VObj [("_id", VStr "xyz"); ("name", VStr "dave");
              ("json", VObj [("error", VStr "input must be a 24 character hex string")])];
        VObj [("name", VStr "carol"); ("age", VNum 41)]],
   Build_state Sample.env 1%nat
     [EvConnect;
      EvCall (FindOneAndReplace "users"
                [("_id", VObjectId [80; 127; 31; 119; 188; 248; 108; 215; 153; 67; 144; 17])]
                [("name", VStr "alice"); ("age", VNum 30)] false);
      EvCall (FindOneAndReplace "users"
                [("_id", VObjectId [0; 0; 0; 0; 0; 0; 0; 0; 0; 0; 0; 0])]
                [("name", VStr "carol"); ("age", VNum 41)] false);
      EvClose]).
Proof. reflexivity. Qed.
